(** * Acquisition functions of the Gaussian-process sampler

    A shallow embedding of [optuna/_gp/acqf.py] and
    [optuna/_gp/optim_sample.py].  Floating-point numbers are read as real
    numbers (exact arithmetic); tensors and arrays are flat, row-major
    sequences of reals together with their shape.

    - [Special], [Normal]: erfc and erfcx, the Gaussian integral, and the
      expected improvement under a normal distribution in closed form;
    - the embedding: tensors, masks, [standard_logei], [logei], [ucb],
      [lcb], the acquisition-function classes and their methods,
      [optimize_acqf_sample];
    - the properties of the embedding;
    - a concrete setting in which the properties are instantiated. *)

From Stdlib Require Import Reals Lra Lia ClassicalEpsilon FunctionalExtensionality.

Local Open Scope R_scope.

(** ** Special functions used by the log-EI formula

    [torch.special.erfc] and [torch.special.erfcx] belong to the numeric
    back end.  They are taken with their mathematical definitions:
    erfc x = 1 - 2/sqrt(pi) * int_0^x exp(-t^2) dt and
    erfcx x = exp(x^2) * erfc x. *)

Module Special.

Definition gauss (t : R) : R := exp (- (t * t)).

Lemma gauss_continuity : continuity gauss.
Proof.
  intros x. unfold gauss.
  apply (continuity_pt_comp (fun t => - (t * t)) exp).
  - apply continuity_pt_opp.
    apply continuity_pt_mult; apply derivable_continuous_pt, derivable_pt_id.
  - apply derivable_continuous_pt, derivable_pt_exp.
Qed.

Definition continuity_integrable (f : R -> R) (Cf : continuity f) (a b : R) :
  Riemann_integrable f a b :=
  match Rle_dec a b with
  | left Hab =>
      continuity_implies_RiemannInt Hab (fun x _ => Cf x)
  | right Hab =>
      RiemannInt_P1
        (continuity_implies_RiemannInt
           (Rlt_le _ _ (Rnot_le_lt _ _ Hab)) (fun x _ => Cf x))
  end.

Definition gauss_integrable (a b : R) : Riemann_integrable gauss a b :=
  continuity_integrable gauss gauss_continuity a b.

Definition gauss_prim (x : R) : R := RiemannInt (gauss_integrable 0 x).

Definition erf (x : R) : R := 2 / sqrt PI * gauss_prim x.

Definition erfc (x : R) : R := 1 - erf x.

Definition erfcx (x : R) : R := exp (x * x) * erfc x.

(** *** The fundamental theorem of calculus, for continuous integrands *)

(** The integral of a continuous function is the increment of any of its
    antiderivatives. *)
Lemma RiemannInt_antiderivative (f F : R -> R) (a b : R)
  (pr : Riemann_integrable f a b) :
  (forall x : R, derivable_pt_lim F x (f x)) -> continuity f ->
  RiemannInt pr = F b - F a.
Proof.
  intros dF Cf.
  pose (dF' := fun x : R => exist (fun l => derivable_pt_abs F x l) (f x) (dF x)).
  assert (cont : continuity (derive F dF')).
  { intros x. exact (Cf x). }
  exact (FTC_Riemann (mkC1 cont) pr).
Qed.

Lemma primitive_RiemannInt (f : R -> R) (lo hi : R) (h : lo <= hi)
  (C0 : forall x : R, lo <= x <= hi -> continuity_pt f x) (t : R)
  (pr : Riemann_integrable f lo t) :
  lo <= t <= hi -> primitive h (FTC_P1 h C0) t = RiemannInt pr.
Proof.
  intros [Hl Hr]. unfold primitive.
  destruct (Rle_dec lo t) as [H1|H1]; [|contradiction].
  destruct (Rle_dec t hi) as [H2|H2]; [|contradiction].
  apply RiemannInt_P5.
Qed.

(** The integral of a continuous function, as a function of its upper
    bound, is an antiderivative. *)
Lemma derivable_pt_lim_RiemannInt (f : R -> R) (Cf : continuity f) (a x : R) :
  derivable_pt_lim (fun t => RiemannInt (continuity_integrable f Cf a t)) x (f x).
Proof.
  set (lo := Rmin a x - 1). set (hi := Rmax a x + 1).
  assert (Hlo_a : lo <= a) by (unfold lo; pose proof (Rmin_l a x); lra).
  assert (Hlo_x : lo <= x - 1) by (unfold lo; pose proof (Rmin_r a x); lra).
  assert (Hhi_a : a <= hi) by (unfold hi; pose proof (Rmax_l a x); lra).
  assert (Hhi_x : x + 1 <= hi) by (unfold hi; pose proof (Rmax_r a x); lra).
  assert (h : lo <= hi) by lra.
  pose (C0 := fun (t : R) (_ : lo <= t <= hi) => Cf t).
  pose (P := primitive h (FTC_P1 h C0)).
  assert (HF : forall t, lo <= t <= hi ->
            RiemannInt (continuity_integrable f Cf a t) = P t - P a).
  { intros t Ht. unfold P.
    rewrite (primitive_RiemannInt _ _ _ h C0 _ (continuity_integrable f Cf lo t) Ht).
    rewrite (primitive_RiemannInt _ _ _ h C0 _ (continuity_integrable f Cf lo a));
      [|lra].
    rewrite <- (RiemannInt_P26 (continuity_integrable f Cf lo a)
                  (continuity_integrable f Cf a t)
                  (continuity_integrable f Cf lo t)).
    ring. }
  assert (dP : derivable_pt_lim P x (f x)).
  { apply RiemannInt_P28. lra. }
  intros eps Heps. destruct (dP eps Heps) as [delta Hdelta].
  assert (Hd : 0 < Rmin delta 1).
  { apply Rmin_pos; [apply cond_pos | lra]. }
  exists (mkposreal _ Hd). simpl. intros k Hk0 Hk.
  assert (Hk1 : Rabs k < delta).
  { apply Rlt_le_trans with (1 := Hk). apply Rmin_l. }
  assert (Hk2 : Rabs k < 1).
  { apply Rlt_le_trans with (1 := Hk). apply Rmin_r. }
  apply Rabs_def2 in Hk2.
  rewrite (HF (x + k)) by lra. rewrite (HF x) by lra.
  replace (P (x + k) - P a - (P x - P a)) with (P (x + k) - P x) by ring.
  apply Hdelta; assumption.
Qed.

Lemma derivable_pt_lim_gauss_prim (x : R) : derivable_pt_lim gauss_prim x (gauss x).
Proof. exact (derivable_pt_lim_RiemannInt gauss gauss_continuity 0 x). Qed.

Lemma gauss_prim_0 : gauss_prim 0 = 0.
Proof. unfold gauss_prim. apply RiemannInt_P9. Qed.


(** *** Calculus helpers *)

Lemma dlim_eq (f : R -> R) (x l l' : R) :
  derivable_pt_lim f x l -> l = l' -> derivable_pt_lim f x l'.
Proof. intros H E. rewrite <- E. exact H. Qed.

Lemma dlim_ext (f g : R -> R) (x l : R) :
  (forall y : R, f y = g y) -> derivable_pt_lim f x l -> derivable_pt_lim g x l.
Proof.
  intros E H eps Heps. destruct (H eps Heps) as [delta Hd].
  exists delta. intros h Hh0 Hh. rewrite <- !E. apply Hd; assumption.
Qed.

Lemma dlim_plus (f g : R -> R) (x lf lg : R) :
  derivable_pt_lim f x lf -> derivable_pt_lim g x lg ->
  derivable_pt_lim (fun y => f y + g y) x (lf + lg).
Proof. intros Hf Hg. exact (derivable_pt_lim_plus f g x lf lg Hf Hg). Qed.

Lemma dlim_minus (f g : R -> R) (x lf lg : R) :
  derivable_pt_lim f x lf -> derivable_pt_lim g x lg ->
  derivable_pt_lim (fun y => f y - g y) x (lf - lg).
Proof. intros Hf Hg. exact (derivable_pt_lim_minus f g x lf lg Hf Hg). Qed.

Lemma dlim_mult (f g : R -> R) (x lf lg : R) :
  derivable_pt_lim f x lf -> derivable_pt_lim g x lg ->
  derivable_pt_lim (fun y => f y * g y) x (lf * g x + f x * lg).
Proof. intros Hf Hg. exact (derivable_pt_lim_mult f g x lf lg Hf Hg). Qed.

Lemma dlim_scal (f : R -> R) (c x lf : R) :
  derivable_pt_lim f x lf -> derivable_pt_lim (fun y => c * f y) x (c * lf).
Proof. intros Hf. exact (derivable_pt_lim_scal f c x lf Hf). Qed.

Lemma dlim_opp (f : R -> R) (x lf : R) :
  derivable_pt_lim f x lf -> derivable_pt_lim (fun y => - f y) x (- lf).
Proof. intros Hf. exact (derivable_pt_lim_opp f x lf Hf). Qed.

Lemma dlim_comp (f g : R -> R) (x lf lg : R) :
  derivable_pt_lim f x lf -> derivable_pt_lim g (f x) lg ->
  derivable_pt_lim (fun y => g (f y)) x (lg * lf).
Proof. intros Hf Hg. exact (derivable_pt_lim_comp f g x lf lg Hf Hg). Qed.

Lemma dlim_const (c x : R) : derivable_pt_lim (fun _ => c) x 0.
Proof. exact (derivable_pt_lim_const c x). Qed.

Lemma dlim_id (x : R) : derivable_pt_lim (fun y => y) x 1.
Proof. exact (derivable_pt_lim_id x). Qed.

(** Affine reparametrisation [y |-> a * y + b]. *)
Lemma dlim_affine (a b x : R) : derivable_pt_lim (fun y => a * y + b) x a.
Proof.
  apply dlim_eq with (a * 1 + 0); [|ring].
  apply dlim_plus; [apply dlim_scal, dlim_id | apply dlim_const].
Qed.

Lemma dlim_exp_comp (f : R -> R) (x lf : R) :
  derivable_pt_lim f x lf ->
  derivable_pt_lim (fun y => exp (f y)) x (exp (f x) * lf).
Proof. intros Hf. apply dlim_comp; [exact Hf | apply derivable_pt_lim_exp]. Qed.

Lemma dlim_continuity (f f' : R -> R) :
  (forall x : R, derivable_pt_lim f x (f' x)) -> continuity f.
Proof.
  intros H x. apply derivable_continuous_pt. exists (f' x). exact (H x).
Qed.

(** A function with a vanishing derivative is constant. *)
Lemma zero_derivative_constant (f : R -> R) :
  (forall x : R, derivable_pt_lim f x 0) -> forall x y : R, f x = f y.
Proof.
  intros H.
  assert (le_case : forall a b : R, a <= b -> f b = f a).
  { intros a b Hab.
    pose (pr := fun (t : R) (_ : a < t < b) =>
                  exist (fun l => derivable_pt_abs f t l) 0 (H t)).
    apply (null_derivative_loc f a b pr).
    - intros t _. apply derivable_continuous_pt. exists 0. exact (H t).
    - intros t P. reflexivity.
    - lra. }
  intros x y. destruct (Rle_dec x y) as [Hxy|Hxy].
  - symmetry. apply le_case. exact Hxy.
  - apply le_case. lra.
Qed.

(** A function with a positive derivative increases. *)
Lemma positive_derivative_increasing (f f' : R -> R) (a b : R) :
  (forall x : R, a <= x <= b -> derivable_pt_lim f x (f' x)) ->
  (forall x : R, a < x < b -> 0 < f' x) ->
  a < b -> f a < f b.
Proof.
  intros Hd Hpos Hab.
  destruct (MVT_cor2 f f' a b Hab Hd) as [c [Hc1 Hc2]].
  pose proof (Hpos c Hc2) as Hfc.
  assert (0 < f' c * (b - a)) by (apply Rmult_lt_0_compat; lra).
  lra.
Qed.

Lemma Rabs_le_between (x b : R) : Rabs x <= b -> - b <= x <= b.
Proof. unfold Rabs. destruct (Rcase_abs x); lra. Qed.

(** The first-order remainder of the exponential. *)
Lemma exp_remainder (y : R) : y <= 1/2 -> 0 <= exp y - 1 - y <= 2 * (y * y).
Proof.
  intros Hy. split.
  - pose proof (exp_ineq1_le y). lra.
  - pose proof (exp_ineq1_le (- y)) as Hm.
    pose proof (exp_pos y) as Hp.
    assert (Hprod : exp y * exp (- y) = 1).
    { rewrite <- exp_plus. replace (y + - y) with 0 by ring. apply exp_0. }
    assert (Hq : exp y * (1 - y) <= 1).
    { rewrite <- Hprod. apply Rmult_le_compat_l; lra. }
    assert (Hy2 : 0 <= y * y) by (apply Rle_0_sqr).
    nra.
Qed.


(** *** The Gaussian integral

    For h(u, t) = exp(-u (1 + t^2)) / (1 + t^2), the function
    x |-> (int_0^x exp(-t^2) dt)^2 + int_0^1 h(x^2, t) dt has a vanishing
    derivative, is pi/4 at 0, and its second term is at most exp(-x^2). *)

Definition hfun (u t : R) : R := exp (- (u * (1 + t * t))) / (1 + t * t).

Definition dfun (u t : R) : R := exp (- (u * (1 + t * t))).

Lemma one_plus_sqr_pos (t : R) : 0 < 1 + t * t.
Proof. pose proof (Rle_0_sqr t) as H. unfold Rsqr in H. lra. Qed.

Lemma hfun_continuity (u : R) : continuity (hfun u).
Proof.
  unfold hfun. intros t. reg. pose proof (one_plus_sqr_pos t). lra.
Qed.

Lemma dfun_continuity (u : R) : continuity (dfun u).
Proof. unfold dfun. intros t. reg. Qed.

Definition Hint (u : R) : R :=
  RiemannInt (continuity_integrable (hfun u) (hfun_continuity u) 0 1).

Definition Dint (u : R) : R :=
  RiemannInt (continuity_integrable (dfun u) (dfun_continuity u) 0 1).

Lemma hfun_increment (u h t : R) :
  0 <= u -> Rabs h <= 1/4 -> 0 <= t <= 1 ->
  0 <= hfun (u + h) t + -1 * hfun u t + h * dfun u t <= 4 * (h * h).
Proof.
  intros Hu Hh Ht. set (k := 1 + t * t).
  assert (Hk : 1 <= k <= 2) by (unfold k; nra).
  assert (Hh' : - (1/4) <= h <= 1/4) by (apply Rabs_le_between; exact Hh).
  assert (E : hfun (u + h) t + -1 * hfun u t + h * dfun u t
              = exp (- (u * k)) / k * (exp (- (h * k)) - 1 - - (h * k))).
  { unfold hfun, dfun. fold k.
    replace (- ((u + h) * k)) with (- (u * k) + - (h * k)) by ring.
    rewrite exp_plus. field. lra. }
  rewrite E.
  assert (Hy : - (h * k) <= 1/2) by nra.
  pose proof (exp_remainder (- (h * k)) Hy) as [R1 R2].
  assert (He : 0 < exp (- (u * k)) <= 1).
  { split; [apply exp_pos|].
    rewrite <- exp_0. destruct (Req_dec (u * k) 0) as [Z|Z].
    - rewrite Z, Ropp_0. lra.
    - left. apply exp_increasing. nra. }
  assert (Hc : 0 <= exp (- (u * k)) / k /\ exp (- (u * k)) / k * k <= 1).
  { split.
    - apply Rmult_le_pos; [lra | left; apply Rinv_0_lt_compat; lra].
    - unfold Rdiv. rewrite Rmult_assoc, Rinv_l by lra. lra. }
  set (c := exp (- (u * k)) / k) in *.
  set (r := exp (- (h * k)) - 1 - - (h * k)) in *.
  destruct Hc as [Hc0 Hc1].
  split; [apply Rmult_le_pos; assumption|].
  apply Rle_trans with (c * (2 * (- (h * k) * - (h * k)))).
  { apply Rmult_le_compat_l; assumption. }
  replace (c * (2 * (- (h * k) * - (h * k)))) with ((c * k) * (2 * (h * h) * k))
    by ring.
  assert (Hhh : 0 <= h * h) by apply Rle_0_sqr.
  apply Rle_trans with (1 * (2 * (h * h) * k)).
  { apply Rmult_le_compat_r; [nra | exact Hc1]. }
  nra.
Qed.


Lemma Hint_increment (u h : R) :
  0 <= u -> Rabs h <= 1/4 ->
  0 <= Hint (u + h) - Hint u + h * Dint u <= 4 * (h * h).
Proof.
  intros Hu Hh. unfold Hint, Dint.
  set (pr1 := continuity_integrable (hfun (u + h)) (hfun_continuity (u + h)) 0 1).
  set (pr2 := continuity_integrable (hfun u) (hfun_continuity u) 0 1).
  set (pr3 := continuity_integrable (dfun u) (dfun_continuity u) 0 1).
  assert (pr12 := RiemannInt_P10 (-1) pr1 pr2).
  assert (pr123 := RiemannInt_P10 h pr12 pr3).
  pose proof (RiemannInt_P13 pr12 pr3 pr123) as E1.
  pose proof (RiemannInt_P13 pr1 pr2 pr12) as E2.
  assert (B : 0 * (1 - 0) <= RiemannInt pr123 <= 4 * (h * h) * (1 - 0)).
  { apply RiemannInt_const_bound; [lra|].
    intros t Ht. apply hfun_increment; [assumption | assumption | lra]. }
  cbv beta in E1, E2, B. rewrite E1, E2 in B. lra.
Qed.

Lemma Hint_derivative (u : R) : 0 <= u -> derivable_pt_lim Hint u (- Dint u).
Proof.
  intros Hu eps Heps.
  assert (Hd : 0 < Rmin (1/4) (eps / 8)).
  { apply Rmin_pos; lra. }
  exists (mkposreal _ Hd). simpl. intros h Hh0 Hh.
  assert (Hh1 : Rabs h <= 1/4).
  { left. apply Rlt_le_trans with (1 := Hh). apply Rmin_l. }
  assert (Hh2 : Rabs h < eps / 8).
  { apply Rlt_le_trans with (1 := Hh). apply Rmin_r. }
  pose proof (Hint_increment u h Hu Hh1) as [B1 B2].
  replace ((Hint (u + h) - Hint u) / h - - Dint u)
    with ((Hint (u + h) - Hint u + h * Dint u) / h) by (field; exact Hh0).
  unfold Rdiv. rewrite Rabs_mult, Rabs_inv.
  rewrite (Rabs_pos_eq _ B1).
  assert (Hah : 0 < Rabs h) by (apply Rabs_pos_lt; exact Hh0).
  apply Rle_lt_trans with (4 * (h * h) * / Rabs h).
  { apply Rmult_le_compat_r; [left; apply Rinv_0_lt_compat; exact Hah | exact B2]. }
  replace (h * h) with (Rabs h * Rabs h).
  2:{ rewrite <- Rabs_mult. apply Rabs_pos_eq. apply Rle_0_sqr. }
  replace (4 * (Rabs h * Rabs h) * / Rabs h) with (4 * Rabs h) by (field; lra).
  lra.
Qed.


Lemma exp_le (x y : R) : x <= y -> exp x <= exp y.
Proof.
  intros [H|H]; [left; apply exp_increasing; exact H | rewrite H; apply Rle_refl].
Qed.

Lemma gauss_pos (x : R) : 0 < gauss x.
Proof. apply exp_pos. Qed.

(** x * int_0^1 exp(-x^2 (1 + t^2)) dt = exp(-x^2) * int_0^x exp(-t^2) dt *)
Lemma Dint_gauss_prim (x : R) : x * Dint (x * x) = gauss x * gauss_prim x.
Proof.
  set (f := fun t : R => x * dfun (x * x) t).
  assert (Cf : continuity f).
  { unfold f, dfun. intros t. reg. }
  set (pr := continuity_integrable f Cf 0 1).
  assert (E1 : RiemannInt pr = gauss x * gauss_prim x).
  { rewrite (RiemannInt_antiderivative f
               (fun t => gauss x * gauss_prim (x * t + 0)) 0 1 pr).
    - rewrite Rmult_1_r, Rplus_0_r, Rmult_0_r, Rplus_0_r, gauss_prim_0. ring.
    - intros t.
      apply dlim_eq with (gauss x * (gauss (x * t + 0) * x)).
      + apply dlim_scal.
        apply (dlim_comp (fun y => x * y + 0) gauss_prim).
        * apply dlim_affine.
        * apply derivable_pt_lim_gauss_prim.
      + unfold f, dfun, gauss. rewrite Rplus_0_r.
        replace (- (x * x * (1 + t * t))) with (- (x * x) + - (x * t * (x * t)))
          by ring.
        rewrite exp_plus. ring.
    - exact Cf. }
  assert (E2 : RiemannInt pr = x * Dint (x * x)).
  { rewrite (RiemannInt_antiderivative f
               (fun t => x * RiemannInt
                  (continuity_integrable (dfun (x * x))
                     (dfun_continuity (x * x)) 0 t)) 0 1 pr).
    - rewrite (RiemannInt_P9 (continuity_integrable (dfun (x * x))
                                (dfun_continuity (x * x)) 0 0)).
      unfold Dint. ring.
    - intros t. unfold f. apply dlim_scal.
      apply (derivable_pt_lim_RiemannInt (dfun (x * x))).
    - exact Cf. }
  rewrite <- E2. exact E1.
Qed.

Definition Ssum (x : R) : R := gauss_prim x * gauss_prim x + Hint (x * x).

Lemma Ssum_derivative (x : R) : derivable_pt_lim Ssum x 0.
Proof.
  unfold Ssum.
  apply dlim_eq with
    ((gauss x * gauss_prim x + gauss_prim x * gauss x)
     + (- Dint (x * x)) * (1 * x + x * 1)).
  - apply dlim_plus.
    + apply dlim_mult; apply derivable_pt_lim_gauss_prim.
    + apply (dlim_comp (fun y => y * y) Hint).
      * apply dlim_mult; apply dlim_id.
      * apply Hint_derivative. apply Rle_0_sqr.
  - pose proof (Dint_gauss_prim x). lra.
Qed.

Lemma Hint_0 : Hint 0 = PI / 4.
Proof.
  unfold Hint.
  rewrite (RiemannInt_antiderivative (hfun 0) atan 0 1).
  - rewrite atan_1, atan_0. ring.
  - intros t. apply dlim_eq with (/ (1 + t ^ 2)).
    + apply derivable_pt_lim_atan.
    + unfold hfun. rewrite Rmult_0_l, Ropp_0, exp_0.
      pose proof (one_plus_sqr_pos t). field. lra.
  - apply hfun_continuity.
Qed.

Lemma Ssum_value (x : R) : gauss_prim x * gauss_prim x + Hint (x * x) = PI / 4.
Proof.
  change (Ssum x = PI / 4).
  rewrite (zero_derivative_constant Ssum Ssum_derivative x 0).
  unfold Ssum. rewrite gauss_prim_0, Rmult_0_l, Rplus_0_l.
  apply Hint_0.
Qed.

Lemma Hint_bounds (u : R) : 0 <= u -> exp (- (2 * u)) / 2 <= Hint u <= exp (- u).
Proof.
  intros Hu. unfold Hint.
  set (pr := continuity_integrable (hfun u) (hfun_continuity u) 0 1).
  assert (B : exp (- (2 * u)) / 2 * (1 - 0) <= RiemannInt pr <= exp (- u) * (1 - 0)).
  { apply RiemannInt_const_bound; [lra|].
    intros t Ht. unfold hfun. set (k := 1 + t * t).
    assert (Hk : 1 <= k <= 2) by (unfold k; nra).
    assert (Hik : 1 / 2 <= / k <= 1).
    { split.
      - replace (1 / 2) with (/ 2) by lra. apply Rinv_le_contravar; lra.
      - rewrite <- Rinv_1. apply Rinv_le_contravar; lra. }
    assert (He1 : exp (- (2 * u)) <= exp (- (u * k))) by (apply exp_le; nra).
    assert (He2 : exp (- (u * k)) <= exp (- u)) by (apply exp_le; nra).
    pose proof (exp_pos (- (2 * u))). pose proof (exp_pos (- (u * k))).
    unfold Rdiv. split.
    - apply Rmult_le_compat; lra.
    - rewrite <- (Rmult_1_r (exp (- u))). apply Rmult_le_compat; lra. }
  lra.
Qed.


Lemma gauss_prim_pos (x : R) : 0 < x -> 0 < gauss_prim x.
Proof.
  intros Hx. rewrite <- gauss_prim_0.
  apply positive_derivative_increasing with gauss; [| |exact Hx].
  - intros t _. apply derivable_pt_lim_gauss_prim.
  - intros t _. apply gauss_pos.
Qed.

Lemma gauss_even (x : R) : gauss (- x) = gauss x.
Proof. unfold gauss. f_equal. ring. Qed.

Lemma gauss_prim_odd (x : R) : gauss_prim (- x) = - gauss_prim x.
Proof.
  set (f := fun y : R => gauss_prim y + gauss_prim (-1 * y + 0)).
  assert (df : forall y : R, derivable_pt_lim f y 0).
  { intros y. unfold f.
    apply dlim_eq with (gauss y + gauss (-1 * y + 0) * -1).
    - apply dlim_plus; [apply derivable_pt_lim_gauss_prim|].
      apply (dlim_comp (fun t => -1 * t + 0) gauss_prim).
      + apply dlim_affine.
      + apply derivable_pt_lim_gauss_prim.
    - replace (-1 * y + 0) with (- y) by ring. rewrite gauss_even. ring. }
  pose proof (zero_derivative_constant f df x 0) as E. unfold f in E.
  replace (-1 * x + 0) with (- x) in E by ring.
  replace (-1 * 0 + 0) with 0 in E by ring.
  rewrite gauss_prim_0 in E. lra.
Qed.

Lemma sqrt_PI_pos : 0 < sqrt PI.
Proof. apply sqrt_lt_R0. apply PI_RGT_0. Qed.

(** int_0^x exp(-t^2) dt tends to sqrt(pi)/2, with an explicit tail. *)
Lemma gauss_prim_tail (x : R) :
  0 <= x ->
  0 < sqrt PI / 2 - gauss_prim x <= 2 / sqrt PI * exp (- (x * x)).
Proof.
  intros Hx. pose proof sqrt_PI_pos as Hs.
  pose proof (sqrt_sqrt PI (Rlt_le _ _ PI_RGT_0)) as Hss.
  pose proof (Ssum_value x) as E.
  pose proof (Hint_bounds (x * x) (Rle_0_sqr x)) as [B1 B2].
  pose proof (exp_pos (- (2 * (x * x)))) as Hp.
  assert (Hg : 0 <= gauss_prim x).
  { destruct Hx as [Hx|Hx].
    - left. apply gauss_prim_pos. exact Hx.
    - rewrite <- Hx, gauss_prim_0. lra. }
  set (g := gauss_prim x) in *. set (s := sqrt PI) in *.
  set (H := Hint (x * x)) in *. set (e := exp (- (x * x))) in *.
  assert (Hprod : (s / 2 - g) * (s / 2 + g) = H) by nra.
  assert (Hpos : 0 < s / 2 - g).
  { apply Rmult_lt_reg_r with (s / 2 + g); [lra|]. rewrite Hprod. lra. }
  split; [exact Hpos|].
  apply Rmult_le_reg_r with (s / 2); [lra|].
  replace (2 / s * e * (s / 2)) with e by (field; lra).
  apply Rle_trans with H; [|exact B2].
  rewrite <- Hprod. apply Rmult_le_compat_l; lra.
Qed.

Lemma erfc_tail (x : R) : 0 <= x -> 0 < erfc x <= 4 / PI * exp (- (x * x)).
Proof.
  intros Hx. pose proof sqrt_PI_pos as Hs.
  pose proof (sqrt_sqrt PI (Rlt_le _ _ PI_RGT_0)) as Hss.
  pose proof (gauss_prim_tail x Hx) as [T1 T2].
  assert (E : erfc x = 2 / sqrt PI * (sqrt PI / 2 - gauss_prim x)).
  { unfold erfc, erf. field. lra. }
  rewrite E. split.
  - apply Rmult_lt_0_compat; [|exact T1].
    apply Rdiv_lt_0_compat; lra.
  - replace (4 / PI * exp (- (x * x)))
      with (2 / sqrt PI * (2 / sqrt PI * exp (- (x * x)))).
    + apply Rmult_le_compat_l; [|exact T2].
      left. apply Rdiv_lt_0_compat; lra.
    + rewrite <- Hss at 3. field. lra.
Qed.

Lemma erfc_opp (x : R) : erfc (- x) = 2 - erfc x.
Proof. unfold erfc, erf. rewrite gauss_prim_odd. ring. Qed.

Lemma erfc_le_1 (x : R) : 0 <= x -> erfc x <= 1.
Proof.
  intros Hx. unfold erfc, erf. pose proof sqrt_PI_pos as Hs.
  assert (Hg : 0 <= gauss_prim x).
  { destruct Hx as [Hx|Hx].
    - left. apply gauss_prim_pos. exact Hx.
    - rewrite <- Hx, gauss_prim_0. lra. }
  assert (0 <= 2 / sqrt PI * gauss_prim x).
  { apply Rmult_le_pos; [|exact Hg]. left. apply Rdiv_lt_0_compat; lra. }
  lra.
Qed.

Lemma erfc_pos (x : R) : 0 < erfc x.
Proof.
  destruct (Rle_dec 0 x) as [Hx|Hx].
  - apply erfc_tail. exact Hx.
  - replace x with (- - x) by ring. rewrite erfc_opp.
    assert (erfc (- x) <= 1) by (apply erfc_le_1; lra). lra.
Qed.

Lemma erfc_lt_2 (x : R) : erfc x < 2.
Proof.
  pose proof (erfc_pos (- x)) as H. rewrite erfc_opp in H. lra.
Qed.

Lemma erfc_derivative (x : R) :
  derivable_pt_lim erfc x (- (2 / sqrt PI * gauss x)).
Proof.
  unfold erfc, erf.
  apply dlim_eq with (0 - 2 / sqrt PI * gauss x); [|ring].
  apply (dlim_minus (fun _ => 1) (fun y => 2 / sqrt PI * gauss_prim y)).
  - apply dlim_const.
  - apply dlim_scal. apply derivable_pt_lim_gauss_prim.
Qed.

End Special.

(** ** The normal distribution and the expected improvement *)

Module Normal.

Import Special.

(** Density and distribution function of N(0, 1). *)
Definition pdf (u : R) : R := exp (- u ^ 2 / 2) / sqrt (2 * PI).

Definition cdf (u : R) : R := 1 / 2 * erfc (- u / sqrt 2).

(** Density of N(mean, var). *)
Definition normal_pdf (mean var y : R) : R :=
  exp (- (y - mean) ^ 2 / (2 * var)) / sqrt (2 * PI * var).

(** [v] is the integral of [f] over the segment from [a] to [b]. *)
Definition integral_on (f : R -> R) (a b v : R) : Prop :=
  exists pr : Riemann_integrable f a b, RiemannInt pr = v.

(** [v] is the integral of [f] over the real line: the limit of its
    integrals over segments that grow in both directions. *)
Definition integral_R (f : R -> R) (v : R) : Prop :=
  forall eps : R, 0 < eps ->
  exists M : R, forall a b : R, a <= - M -> M <= b ->
  exists I : R, integral_on f a b I /\ Rabs (I - v) < eps.

(** [v] is E[g(y)] for y ~ N(mean, var). *)
Definition normal_expectation (mean var : R) (g : R -> R) (v : R) : Prop :=
  integral_R (fun y => g y * normal_pdf mean var y) v.

Lemma sqrt2_pos : 0 < sqrt 2.
Proof. apply sqrt_lt_R0. lra. Qed.

Lemma sqrt2_sqr : sqrt 2 * sqrt 2 = 2.
Proof. apply sqrt_sqrt. lra. Qed.

Lemma sqrt_2PI_pos : 0 < sqrt (2 * PI).
Proof. apply sqrt_lt_R0. pose proof PI_RGT_0. lra. Qed.

Lemma sqrt_2PI_split : sqrt (2 * PI) = sqrt 2 * sqrt PI.
Proof. apply sqrt_mult; [lra | left; apply PI_RGT_0]. Qed.

Lemma sqrt_2PI_ge_1 : 1 <= sqrt (2 * PI).
Proof.
  rewrite <- sqrt_1. pose proof PI2_1. apply sqrt_le_1; lra.
Qed.

Lemma pdf_pos (u : R) : 0 < pdf u.
Proof.
  unfold pdf. apply Rdiv_lt_0_compat; [apply exp_pos | apply sqrt_2PI_pos].
Qed.

Lemma pdf_even (u : R) : pdf (- u) = pdf u.
Proof.
  unfold pdf. replace (- (- u) ^ 2 / 2) with (- u ^ 2 / 2) by field.
  reflexivity.
Qed.

Lemma pdf_le_exp (u : R) : pdf u <= exp (- u ^ 2 / 2).
Proof.
  unfold pdf. pose proof sqrt_2PI_ge_1. pose proof (exp_pos (- u ^ 2 / 2)).
  apply Rmult_le_reg_r with (sqrt (2 * PI)); [lra|].
  unfold Rdiv at 1. rewrite Rmult_assoc, Rinv_l by lra. nra.
Qed.

Lemma gauss_scaled (u : R) : gauss (- u / sqrt 2) = exp (- u ^ 2 / 2).
Proof.
  unfold gauss. f_equal. pose proof sqrt2_pos. pose proof sqrt2_sqr as E.
  replace (- u / sqrt 2 * (- u / sqrt 2)) with (u ^ 2 / (sqrt 2 * sqrt 2))
    by (field; lra).
  rewrite E. field.
Qed.

Lemma cdf_opp (u : R) : cdf (- u) = 1 - cdf u.
Proof.
  unfold cdf. replace (- - u / sqrt 2) with (- (- u / sqrt 2)).
  - rewrite erfc_opp. lra.
  - unfold Rdiv. ring.
Qed.

Lemma cdf_bounds (u : R) : 0 < cdf u < 1.
Proof.
  unfold cdf. pose proof (erfc_pos (- u / sqrt 2)).
  pose proof (erfc_lt_2 (- u / sqrt 2)). lra.
Qed.

Lemma cdf_derivative (u : R) : derivable_pt_lim cdf u (pdf u).
Proof.
  unfold cdf. pose proof sqrt2_pos. pose proof sqrt_PI_pos.
  apply dlim_ext with (fun y => 1 / 2 * erfc (- / sqrt 2 * y + 0)).
  { intros y. do 2 f_equal. unfold Rdiv. ring. }
  apply dlim_eq with
    (1 / 2 * (- (2 / sqrt PI * gauss (- / sqrt 2 * u + 0)) * - / sqrt 2)).
  - apply dlim_scal.
    apply (dlim_comp (fun y => - / sqrt 2 * y + 0) erfc).
    + apply dlim_affine.
    + apply erfc_derivative.
  - replace (- / sqrt 2 * u + 0) with (- u / sqrt 2) by (unfold Rdiv; ring).
    rewrite gauss_scaled. unfold pdf. rewrite sqrt_2PI_split. field. lra.
Qed.

Lemma pdf_derivative (u : R) : derivable_pt_lim pdf u (- u * pdf u).
Proof.
  unfold pdf. pose proof sqrt_2PI_pos.
  apply dlim_ext with
    (fun y => / sqrt (2 * PI) * exp (- / 2 * (y * y))).
  { intros y. replace (- y ^ 2 / 2) with (- / 2 * (y * y)) by field.
    unfold Rdiv. ring. }
  apply dlim_eq with
    (/ sqrt (2 * PI) * (exp (- / 2 * (u * u)) * (- / 2 * (1 * u + u * 1)))).
  - apply dlim_scal.
    apply (dlim_exp_comp (fun y => - / 2 * (y * y))).
    apply dlim_scal. apply dlim_mult; apply dlim_id.
  - replace (- u ^ 2 / 2) with (- / 2 * (u * u)) by field. field. lra.
Qed.

Lemma cdf_upper_tail (u : R) : 0 <= u -> 1 - cdf u <= 2 / PI * exp (- u ^ 2 / 2).
Proof.
  intros Hu. pose proof sqrt2_pos.
  replace (1 - cdf u) with (cdf (- u)) by (rewrite cdf_opp; ring).
  unfold cdf. replace (- - u / sqrt 2) with (u / sqrt 2) by (unfold Rdiv; ring).
  assert (Hq : 0 <= u / sqrt 2).
  { apply Rmult_le_pos; [exact Hu | left; apply Rinv_0_lt_compat; lra]. }
  pose proof (erfc_tail (u / sqrt 2) Hq) as [_ T].
  replace (- (u / sqrt 2 * (u / sqrt 2))) with (- (- u / sqrt 2 * (- u / sqrt 2)))
    in T by (unfold Rdiv; ring).
  fold (gauss (- u / sqrt 2)) in T. rewrite gauss_scaled in T. lra.
Qed.


Lemma exp_neg_small (delta t : R) : 0 < delta -> / delta <= t -> exp (- t) < delta.
Proof.
  intros Hd Ht. pose proof (exp_ineq1_le t) as He.
  assert (Hid : 0 < / delta) by (apply Rinv_0_lt_compat; exact Hd).
  rewrite exp_Ropp. rewrite <- (Rinv_inv delta).
  apply Rinv_lt_contravar.
  - apply Rmult_lt_0_compat; [exact Hid | apply exp_pos].
  - lra.
Qed.

Lemma integral_on_unique (f : R -> R) (a b v1 v2 : R) :
  integral_on f a b v1 -> integral_on f a b v2 -> v1 = v2.
Proof.
  intros [pr1 E1] [pr2 E2]. rewrite <- E1, <- E2. apply RiemannInt_P5.
Qed.

(** The integral over the real line is unique. *)
Lemma integral_R_unique (f : R -> R) (v1 v2 : R) :
  integral_R f v1 -> integral_R f v2 -> v1 = v2.
Proof.
  intros H1 H2.
  destruct (Req_dec v1 v2) as [E|N]; [exact E | exfalso].
  assert (Heps : 0 < Rabs (v1 - v2) / 2).
  { apply Rdiv_lt_0_compat; [|lra]. apply Rabs_pos_lt. lra. }
  destruct (H1 _ Heps) as [M1 HM1]. destruct (H2 _ Heps) as [M2 HM2].
  set (M := Rmax M1 M2).
  assert (L1 : M1 <= M) by apply Rmax_l.
  assert (L2 : M2 <= M) by apply Rmax_r.
  destruct (HM1 (- M) M) as [I1 [J1 B1]]; [lra | lra |].
  destruct (HM2 (- M) M) as [I2 [J2 B2]]; [lra | lra |].
  rewrite (integral_on_unique f _ _ _ _ J2 J1) in B2.
  assert (T : Rabs (v1 - v2) <= Rabs (I1 - v1) + Rabs (I1 - v2)).
  { replace (v1 - v2) with (- (I1 - v1) + (I1 - v2)) by ring.
    eapply Rle_trans; [apply Rabs_triang|]. rewrite Rabs_Ropp. lra. }
  lra.
Qed.

Section ExpectedImprovement.

Variables mean sigma f0 : R.
Hypothesis sigma_pos : 0 < sigma.

(** The density of N(mean, sigma^2), through the standard one. *)
Definition density (y : R) : R := pdf ((y - mean) / sigma) / sigma.

Definition improvement (y : R) : R := Rmax 0 (y - f0).

(** An antiderivative of (y - f0) * density y. *)
Definition Gfun (y : R) : R :=
  (mean - f0) * cdf ((y - mean) / sigma) - sigma * pdf ((y - mean) / sigma).

Lemma density_pos (y : R) : 0 < density y.
Proof.
  unfold density. apply Rdiv_lt_0_compat; [apply pdf_pos | exact sigma_pos].
Qed.

Lemma Gfun_derivative (y : R) : derivable_pt_lim Gfun y ((y - f0) * density y).
Proof.
  unfold Gfun, density.
  set (u := fun t : R => / sigma * t + - mean / sigma).
  assert (Eu : forall t : R, (t - mean) / sigma = u t).
  { intros t. unfold u. field. lra. }
  apply dlim_ext with (fun t => (mean - f0) * cdf (u t) - sigma * pdf (u t)).
  { intros t. rewrite Eu. reflexivity. }
  rewrite Eu.
  apply dlim_eq with
    ((mean - f0) * (pdf (u y) * / sigma)
     - sigma * (- u y * pdf (u y) * / sigma)).
  - apply dlim_minus; apply dlim_scal.
    + apply (dlim_comp u cdf); [apply dlim_affine | apply cdf_derivative].
    + apply (dlim_comp u pdf); [apply dlim_affine | apply pdf_derivative].
  - unfold u. field. lra.
Qed.

Lemma tail_continuity : continuity (fun y => (y - f0) * density y).
Proof.
  apply dlim_continuity with (fun y => 1 * density y + (y - f0) * (- ((y - mean) / sigma) * pdf ((y - mean) / sigma) * / sigma * / sigma)).
  intros y. apply (dlim_mult (fun t => t - f0) density).
  - apply dlim_eq with (1 - 0); [|ring].
    apply (dlim_minus (fun t => t) (fun _ => f0)); [apply dlim_id | apply dlim_const].
  - unfold density.
    set (u := fun t : R => / sigma * t + - mean / sigma).
    assert (Eu : forall t : R, (t - mean) / sigma = u t).
    { intros t. unfold u. field. lra. }
    apply dlim_ext with (fun t => / sigma * pdf (u t)).
    { intros t. rewrite Eu. unfold Rdiv. ring. }
    rewrite Eu.
    apply dlim_eq with (/ sigma * (- u y * pdf (u y) * / sigma)); [|ring].
    apply dlim_scal.
    apply (dlim_comp u pdf); [apply dlim_affine | apply pdf_derivative].
Qed.

Lemma improvement_left (y : R) : y <= f0 -> improvement y = 0.
Proof. intros H. unfold improvement. apply Rmax_left. lra. Qed.

Lemma improvement_right (y : R) : f0 <= y -> improvement y = y - f0.
Proof. intros H. unfold improvement. apply Rmax_right. lra. Qed.

(** The integral of the integrand over a segment that contains f0. *)
Lemma improvement_integral (a b : R) :
  a <= f0 -> f0 <= b ->
  integral_on (fun y => improvement y * density y) a b (Gfun b - Gfun f0).
Proof.
  intros Ha Hb.
  set (h := fun y => improvement y * density y).
  set (k := fun y => (y - f0) * density y).
  assert (pr0 : Riemann_integrable (fct_cte 0) a f0) by apply RiemannInt_P14.
  assert (pr1 : Riemann_integrable h a f0).
  { apply Riemann_integrable_ext with (fct_cte 0); [|exact pr0].
    intros x. rewrite Rmin_left, Rmax_right by exact Ha. intros [_ Hx].
    unfold h, fct_cte. rewrite improvement_left by exact Hx. ring. }
  assert (E1 : RiemannInt pr1 = 0).
  { rewrite (RiemannInt_P18 pr1 pr0 Ha).
    - rewrite RiemannInt_P15. ring.
    - intros x [_ Hx]. unfold h, fct_cte.
      rewrite improvement_left by lra. ring. }
  pose (prk := continuity_integrable k tail_continuity f0 b).
  assert (pr2 : Riemann_integrable h f0 b).
  { apply Riemann_integrable_ext with k; [|exact prk].
    intros x. rewrite Rmin_left, Rmax_right by exact Hb. intros [Hx _].
    unfold h, k. rewrite improvement_right by exact Hx. reflexivity. }
  assert (E2 : RiemannInt pr2 = Gfun b - Gfun f0).
  { rewrite (RiemannInt_P18 pr2 prk Hb).
    - apply RiemannInt_antiderivative; [apply Gfun_derivative | apply tail_continuity].
    - intros x [Hx _]. unfold h, k. rewrite improvement_right by lra. reflexivity. }
  exists (RiemannInt_P24 pr1 pr2).
  rewrite <- (RiemannInt_P26 pr1 pr2 (RiemannInt_P24 pr1 pr2)), E1, E2. ring.
Qed.

(** Gfun tends to mean - f0 at infinity. *)
Lemma Gfun_limit (eps : R) :
  0 < eps ->
  exists B : R, forall b : R, B <= b -> Rabs (Gfun b - (mean - f0)) < eps.
Proof.
  intros Heps.
  set (C := Rabs (mean - f0) * (2 / PI) + sigma).
  assert (HC : 0 < C).
  { unfold C. pose proof (Rabs_pos (mean - f0)). pose proof PI_RGT_0.
    assert (0 < 2 / PI) by (apply Rdiv_lt_0_compat; lra).
    assert (0 <= Rabs (mean - f0) * (2 / PI)) by (apply Rmult_le_pos; lra).
    lra. }
  set (delta := eps / C).
  assert (Hdelta : 0 < delta) by (apply Rdiv_lt_0_compat; assumption).
  set (U := 1 + 2 / delta).
  exists (mean + sigma * U). intros b Hb.
  set (u := (b - mean) / sigma).
  assert (Hu : U <= u).
  { unfold u. apply Rmult_le_reg_r with sigma; [exact sigma_pos|].
    unfold Rdiv. rewrite Rmult_assoc, Rinv_l by lra. lra. }
  assert (HU : 1 <= U).
  { unfold U. assert (0 < 2 / delta) by (apply Rdiv_lt_0_compat; lra). lra. }
  assert (He : exp (- u ^ 2 / 2) < delta).
  { replace (- u ^ 2 / 2) with (- (u ^ 2 / 2)) by field.
    apply exp_neg_small; [exact Hdelta|].
    assert (/ delta <= u / 2).
    { unfold U in Hu. replace (2 / delta) with (2 * / delta) in Hu by reflexivity.
      assert (0 < / delta) by (apply Rinv_0_lt_compat; exact Hdelta). lra. }
    nra. }
  assert (Htail : 0 <= 1 - cdf u <= 2 / PI * exp (- u ^ 2 / 2)).
  { split; [pose proof (cdf_bounds u); lra | apply cdf_upper_tail; lra]. }
  pose proof (pdf_pos u) as Hp. pose proof (pdf_le_exp u) as Hpe.
  unfold Gfun. fold u.
  replace ((mean - f0) * cdf u - sigma * pdf u - (mean - f0))
    with (- ((mean - f0) * (1 - cdf u)) + - (sigma * pdf u)) by ring.
  eapply Rle_lt_trans; [apply Rabs_triang|].
  rewrite !Rabs_Ropp, Rabs_mult.
  rewrite (Rabs_pos_eq (1 - cdf u)) by lra.
  rewrite (Rabs_pos_eq (sigma * pdf u)) by (apply Rmult_le_pos; lra).
  apply Rle_lt_trans with (C * exp (- u ^ 2 / 2)).
  - unfold C. pose proof (Rabs_pos (mean - f0)).
    assert (Rabs (mean - f0) * (1 - cdf u)
            <= Rabs (mean - f0) * (2 / PI * exp (- u ^ 2 / 2)))
      by (apply Rmult_le_compat_l; lra).
    assert (sigma * pdf u <= sigma * exp (- u ^ 2 / 2))
      by (apply Rmult_le_compat_l; lra).
    lra.
  - replace eps with (C * delta) by (unfold delta; field; lra).
    apply Rmult_lt_compat_l; assumption.
Qed.

Lemma Gfun_increasing (y1 y2 : R) : f0 <= y1 -> y1 < y2 -> Gfun y1 < Gfun y2.
Proof.
  intros H1 H2.
  apply positive_derivative_increasing with (fun y => (y - f0) * density y);
    [| |exact H2].
  - intros y _. apply Gfun_derivative.
  - intros y Hy. apply Rmult_lt_0_compat; [lra | apply density_pos].
Qed.

(** The expected improvement, E[max(0, y - f0)]. *)
Definition expected_improvement : R := (mean - f0) - Gfun f0.

Lemma expected_improvement_pos : 0 < expected_improvement.
Proof.
  unfold expected_improvement.
  pose proof (Gfun_increasing f0 (f0 + 1)) as Hinc.
  assert (Hle : Gfun (f0 + 1) <= mean - f0).
  { destruct (Rle_dec (Gfun (f0 + 1)) (mean - f0)) as [H|H]; [exact H | exfalso].
    assert (Heps : 0 < Gfun (f0 + 1) - (mean - f0)) by lra.
    destruct (Gfun_limit _ Heps) as [B HB].
    set (b := Rmax B (f0 + 2)).
    assert (Hb1 : B <= b) by apply Rmax_l.
    assert (Hb2 : f0 + 2 <= b) by apply Rmax_r.
    pose proof (HB b Hb1) as Hlim. apply Rabs_def2 in Hlim.
    pose proof (Gfun_increasing (f0 + 1) b). lra. }
  lra.
Qed.

Lemma expected_improvement_closed_form :
  let z := (mean - f0) / sigma in
  expected_improvement = sigma * (z * cdf z + pdf z).
Proof.
  intros z. unfold expected_improvement, Gfun.
  replace ((f0 - mean) / sigma) with (- z) by (unfold z; field; lra).
  rewrite cdf_opp, pdf_even.
  replace (mean - f0) with (sigma * z) by (unfold z; field; lra).
  ring.
Qed.

Lemma improvement_integral_R :
  integral_R (fun y => improvement y * density y) expected_improvement.
Proof.
  intros eps Heps. destruct (Gfun_limit eps Heps) as [B HB].
  exists (Rmax (Rabs f0) B). intros a b Ha Hb.
  pose proof (Rmax_l (Rabs f0) B). pose proof (Rmax_r (Rabs f0) B).
  pose proof (Rle_abs f0). pose proof (Rle_abs (- f0)) as Hn.
  rewrite Rabs_Ropp in Hn.
  exists (Gfun b - Gfun f0). split.
  - apply improvement_integral; lra.
  - unfold expected_improvement.
    replace (Gfun b - Gfun f0 - (mean - f0 - Gfun f0))
      with (Gfun b - (mean - f0)) by ring.
    apply HB. lra.
Qed.

End ExpectedImprovement.


Lemma normal_pdf_density (mean var y : R) :
  0 < var -> normal_pdf mean var y = density mean (sqrt var) y.
Proof.
  intros Hv. unfold normal_pdf, density, pdf.
  pose proof (sqrt_lt_R0 var Hv) as Hs.
  pose proof (sqrt_sqrt var (Rlt_le _ _ Hv)) as Hss.
  pose proof sqrt_2PI_pos as Hp.
  replace (2 * PI * var) with ((2 * PI) * var) by ring.
  rewrite sqrt_mult; [| pose proof PI_RGT_0; lra | lra].
  replace (- ((y - mean) / sqrt var) ^ 2 / 2) with (- (y - mean) ^ 2 / (2 * var)).
  - field. lra.
  - rewrite <- Hss at 1. field. lra.
Qed.

(** The expected improvement under N(mean, var), in closed form:
    E[max(0, y - f0)] = sigma * (z * cdf z + pdf z) with sigma = sqrt var
    and z = (mean - f0) / sigma. *)
Theorem normal_expected_improvement (mean var f0 : R) :
  0 < var ->
  let sigma := sqrt var in
  let z := (mean - f0) / sigma in
  normal_expectation mean var (fun y => Rmax 0 (y - f0))
    (sigma * (z * cdf z + pdf z))
  /\ 0 < sigma * (z * cdf z + pdf z).
Proof.
  intros Hv sigma z.
  assert (Hs : 0 < sigma) by (apply sqrt_lt_R0; exact Hv).
  pose proof (expected_improvement_closed_form mean sigma f0 Hs) as E.
  cbv zeta in E. unfold z. rewrite <- E.
  split; [|apply expected_improvement_pos; exact Hs].
  unfold normal_expectation.
  replace (fun y : R => Rmax 0 (y - f0) * normal_pdf mean var y)
    with (fun y : R => improvement f0 y * density mean sigma y).
  - apply improvement_integral_R. exact Hs.
  - apply functional_extensionality. intros y.
    rewrite normal_pdf_density by exact Hv. reflexivity.
Qed.

(** z * cdf z + pdf z = E[max(0, x + z)] for x ~ N(0, 1) is positive. *)
Lemma standard_improvement_pos (z : R) : 0 < z * cdf z + pdf z.
Proof.
  pose proof (expected_improvement_pos z 1 0 Rlt_0_1) as H.
  pose proof (expected_improvement_closed_form z 1 0 Rlt_0_1) as E.
  cbv zeta in E. rewrite E in H.
  replace ((z - 0) / 1) with z in H by field. lra.
Qed.

Lemma sqrt_half : sqrt (1 / 2) = / sqrt 2.
Proof. rewrite <- sqrt_inv. f_equal. lra. Qed.

(** The formula of the branch z >= -25, as the code writes it. *)
Lemma normal_branch_value (z : R) :
  ln (z * (1 / 2 * erfc (- z * sqrt (1 / 2)))
      + exp (- (1 / 2) * z ^ 2) * (1 / sqrt (2 * PI)))
  = ln (z * cdf z + pdf z).
Proof.
  rewrite sqrt_half. unfold cdf, pdf. f_equal. f_equal.
  replace (- (1 / 2) * z ^ 2) with (- z ^ 2 / 2) by field.
  unfold Rdiv. ring.
Qed.

(** The formula of the branch z < -25, as the code writes it. *)
Lemma small_branch_value (z : R) :
  - (1 / 2) * z ^ 2
  + ln ((z * (sqrt (1 / 2 * PI) * erfcx (- z * sqrt (1 / 2))) + 1)
        * (1 / sqrt (2 * PI)))
  = ln (z * cdf z + pdf z).
Proof.
  pose proof (standard_improvement_pos z) as Hm.
  pose proof sqrt2_pos as H2. pose proof sqrt_PI_pos as HP.
  pose proof (exp_pos (z ^ 2 / 2)) as He.
  assert (E : (z * (sqrt (1 / 2 * PI) * erfcx (- z * sqrt (1 / 2))) + 1)
              * (1 / sqrt (2 * PI))
              = exp (z ^ 2 / 2) * (z * cdf z + pdf z)).
  { rewrite sqrt_mult; [| lra | left; apply PI_RGT_0].
    rewrite sqrt_half, sqrt_2PI_split.
    unfold erfcx, cdf, pdf. rewrite sqrt_2PI_split.
    replace (- z * / sqrt 2 * (- z * / sqrt 2)) with (z ^ 2 / (sqrt 2 * sqrt 2))
      by (field; lra).
    rewrite sqrt2_sqr.
    replace (- z / sqrt 2) with (- z * / sqrt 2) by reflexivity.
    assert (Hee : exp (z ^ 2 / 2) * exp (- z ^ 2 / 2) = 1).
    { rewrite <- exp_plus. replace (z ^ 2 / 2 + - z ^ 2 / 2) with 0 by field.
      apply exp_0. }
    set (e := exp (z ^ 2 / 2)) in *. set (e' := exp (- z ^ 2 / 2)) in *.
    set (c := erfc (- z * / sqrt 2)).
    replace (e * (z * (1 / 2 * c) + e' / (sqrt 2 * sqrt PI)))
      with (e * z * (1 / 2 * c) + (e * e') / (sqrt 2 * sqrt PI))
      by (field; lra).
    rewrite Hee.
    replace (1 / 2 * c) with (/ (sqrt 2 * sqrt 2) * c)
      by (rewrite sqrt2_sqr; field).
    field. lra. }
  rewrite E, ln_mult by assumption. rewrite ln_exp. field.
Qed.

(** log sigma + log(z * cdf z + pdf z) is the logarithm of the expected
    improvement. *)
Lemma ln_expected_improvement (sigma z : R) :
  0 < sigma ->
  ln sigma + ln (z * cdf z + pdf z) = ln (sigma * (z * cdf z + pdf z)).
Proof.
  intros Hs. rewrite ln_mult; [reflexivity | exact Hs |].
  apply standard_improvement_pos.
Qed.

(** *** Monotonicity of the expected improvement *)

Lemma standard_improvement_derivative (z : R) :
  derivable_pt_lim (fun t => t * cdf t + pdf t) z (cdf z).
Proof.
  apply dlim_eq with ((1 * cdf z + z * pdf z) + - z * pdf z); [|ring].
  apply dlim_plus.
  - apply (dlim_mult (fun t => t) cdf); [apply dlim_id | apply cdf_derivative].
  - apply pdf_derivative.
Qed.

Lemma standard_improvement_increasing (z1 z2 : R) :
  z1 < z2 -> z1 * cdf z1 + pdf z1 < z2 * cdf z2 + pdf z2.
Proof.
  intros H.
  apply (positive_derivative_increasing (fun t => t * cdf t + pdf t) cdf z1 z2);
    [| |exact H].
  - intros t _. apply standard_improvement_derivative.
  - intros t _. apply cdf_bounds.
Qed.

(** E[max(0, x + z)] - E[max(0, x - z)] = z *)
Lemma standard_improvement_reflect (z : R) :
  (z * cdf z + pdf z) - (- z * cdf (- z) + pdf (- z)) = z.
Proof. rewrite cdf_opp, pdf_even. ring. Qed.

Lemma standard_improvement_gt (z : R) : z < z * cdf z + pdf z.
Proof.
  pose proof (standard_improvement_reflect z).
  pose proof (standard_improvement_pos (- z)). lra.
Qed.

(** sigma * E[max(0, x + c/sigma)] grows with sigma. *)
Lemma scaled_improvement_derivative (c s : R) :
  0 < s ->
  derivable_pt_lim (fun t => t * (c / t * cdf (c / t) + pdf (c / t))) s
    (pdf (c / s)).
Proof.
  intros Hs.
  assert (dq : derivable_pt_lim (fun t => c / t) s (- c / (s * s))).
  { apply dlim_eq with ((0 * s - 1 * c) / Rsqr s).
    - apply (derivable_pt_lim_div (fun _ => c) (fun t => t)).
      + apply dlim_const.
      + apply dlim_id.
      + lra.
    - unfold Rsqr. field. lra. }
  apply dlim_eq with
    (1 * (c / s * cdf (c / s) + pdf (c / s)) + s * (cdf (c / s) * (- c / (s * s)))).
  - apply (dlim_mult (fun t => t) (fun t => c / t * cdf (c / t) + pdf (c / t))).
    + apply dlim_id.
    + apply (dlim_comp (fun t => c / t) (fun u => u * cdf u + pdf u)).
      * exact dq.
      * apply standard_improvement_derivative.
  - field. lra.
Qed.

Lemma scaled_improvement_increasing (c s1 s2 : R) :
  0 < s1 -> s1 < s2 ->
  s1 * (c / s1 * cdf (c / s1) + pdf (c / s1))
  < s2 * (c / s2 * cdf (c / s2) + pdf (c / s2)).
Proof.
  intros H1 H2.
  apply (positive_derivative_increasing
           (fun t => t * (c / t * cdf (c / t) + pdf (c / t)))
           (fun t => pdf (c / t)) s1 s2); [| |exact H2].
  - intros t Ht. apply scaled_improvement_derivative. lra.
  - intros t _. apply pdf_pos.
Qed.

End Normal.

(** ** The embedding *)

From HB Require Import structures.
From mathcomp Require Import boot ssralg matrix.

Set Implicit Arguments.
Unset Strict Implicit.
Unset Printing Implicit Defensive.

(** [%R] is the ring scope from here on; Stdlib's real-number scope gets
    its own key. *)
Delimit Scope R_scope with real.
Local Open Scope R_scope.

(** *** Reals as a MathComp field

    The covariance matrix is a MathComp matrix over the reals, so that
    [np.linalg.inv] can be read as [invmx]. *)

Definition Req_bool (x y : R) : bool := if Req_EM_T x y then true else false.

Lemma Req_boolP : Equality.axiom Req_bool.
Proof. by move=> x y; rewrite /Req_bool; case: (Req_EM_T x y) => h; constructor. Qed.

HB.instance Definition _ := hasDecEq.Build R Req_boolP.

Lemma R_inhabited : inhabited R.
Proof. exact: (inhabits R0). Qed.

Definition R_pick (P : pred R) (_ : nat) : option R :=
  let x := epsilon R_inhabited (fun y => is_true (P y)) in
  if P x then Some x else None.

Lemma R_pick_sound (P : pred R) n x : R_pick P n = Some x -> P x.
Proof. by rewrite /R_pick; case: ifP => // Px [<-]. Qed.

Lemma R_pick_complete (P : pred R) : (exists x, P x) -> exists n, R_pick P n.
Proof.
  move=> exP; exists 0%N.
  by rewrite /R_pick (epsilon_spec R_inhabited (fun y => is_true (P y)) exP).
Qed.

Lemma R_pick_ext (P Q : pred R) : P =1 Q -> R_pick P =1 R_pick Q.
Proof.
  move=> eqPQ n.
  have -> // : P = Q.
  exact: functional_extensionality.
Qed.

HB.instance Definition _ :=
  hasChoice.Build R R_pick_sound R_pick_complete R_pick_ext.

Lemma RplusA : associative Rplus.
Proof. by move=> x y z; rewrite Rplus_assoc. Qed.

Lemma RmultA : associative Rmult.
Proof. by move=> x y z; rewrite Rmult_assoc. Qed.

Lemma Rplus_oppl : left_inverse R0 Ropp Rplus.
Proof. by move=> x; rewrite Rplus_opp_l. Qed.

Lemma Rmult_plusl : left_distributive Rmult Rplus.
Proof. by move=> x y z; rewrite Rmult_plus_distr_r. Qed.

Lemma R1_neq_0 : R1 != R0.
Proof. by apply/eqP; exact: R1_neq_R0. Qed.

Lemma Rinv_mult_l (x : R) : x != R0 -> Rmult (Rinv x) x = R1.
Proof. by move/eqP => xn0; rewrite Rinv_l. Qed.

HB.instance Definition _ :=
  GRing.isZmodule.Build R RplusA Rplus_comm Rplus_0_l Rplus_oppl.

HB.instance Definition _ :=
  GRing.Zmodule_isComNzRing.Build R
    RmultA Rmult_comm Rmult_1_l Rmult_plusl R1_neq_0.

HB.instance Definition _ :=
  GRing.ComNzRing_isField.Build R Rinv_mult_l Rinv_0.

(** *** Exceptions *)

Inductive exn : Type :=
  | AssertionError
  | RuntimeError
  | ValueError
  | IndexError
  | LinAlgError.

Inductive result (A : Type) : Type :=
  | Ok (a : A)
  | Raise (e : exn).

Arguments Ok {A} a.
Arguments Raise {A} e.

Definition rbind {A B : Type} (r : result A) (k : A -> result B) : result B :=
  match r with
  | Ok a => k a
  | Raise e => Raise e
  end.

Notation "x <-- r ;; k" := (rbind r (fun x => k))
  (at level 61, r at next level, right associativity).

(** *** Tensors

    A [torch.Tensor] or [np.ndarray] of floats: its shape and its elements
    in row-major order.  A 0-dimensional tensor has shape [[::]] and one
    element. *)

Record Tensor : Type := mkTensor { shape : seq nat; data : seq R }.

Definition ndim (t : Tensor) : nat := size (shape t).

Definition numel (t : Tensor) : nat := foldr muln 1%N (shape t).

Definition well_shaped (t : Tensor) : bool := size (data t) == numel t.

(** Elementwise operations.  Every binary operation of this module
    combines two tensors of one shape; [tzip] keeps the shape of its left
    operand. *)
Definition tmap (f : R -> R) (t : Tensor) : Tensor :=
  mkTensor (shape t) [seq f x | x <- data t].

Definition tzip (f : R -> R -> R) (a b : Tensor) : Tensor :=
  mkTensor (shape a) [seq f p.1 p.2 | p <- zip (data a) (data b)].

Definition tneg : Tensor -> Tensor := tmap Ropp.                 (* -t *)
Definition tsqrt : Tensor -> Tensor := tmap sqrt.                (* torch.sqrt *)
Definition tlog : Tensor -> Tensor := tmap ln.                   (* torch.log *)
Definition texp : Tensor -> Tensor := tmap exp.                  (* torch.exp *)
Definition terfc : Tensor -> Tensor := tmap Special.erfc.
Definition terfcx : Tensor -> Tensor := tmap Special.erfcx.
Definition tsquare : Tensor -> Tensor := tmap (fun x => x ^ 2).  (* t**2 *)
Definition smul (c : R) : Tensor -> Tensor := tmap (Rmult c).    (* c * t *)
Definition tmuls (t : Tensor) (c : R) : Tensor := tmap (fun x => x * c) t.
Definition tadds (t : Tensor) (c : R) : Tensor := tmap (fun x => x + c) t.
Definition tsubs (t : Tensor) (c : R) : Tensor := tmap (fun x => x - c) t.
Definition tadd : Tensor -> Tensor -> Tensor := tzip Rplus.
Definition tsub : Tensor -> Tensor -> Tensor := tzip Rminus.
Definition tmul : Tensor -> Tensor -> Tensor := tzip Rmult.
Definition tdiv : Tensor -> Tensor -> Tensor := tzip Rdiv.

(** *** Confidence bounds *)

Definition ucb (mean var : Tensor) (beta : R) : Tensor :=
  tadd mean (tsqrt (smul beta var)).

Definition lcb (mean var : Tensor) (beta : R) : Tensor :=
  tsub mean (tsqrt (smul beta var)).

(** *** Boolean masks *)

Definition Rltb (x y : R) : bool := if Rlt_dec x y then true else false.

(** [t < c]: the boolean tensor of the comparison, as a flat mask. *)
Definition tlts (t : Tensor) (c : R) : bitseq := [seq Rltb x c | x <- data t].

(** [~m] *)
Definition mask_not (m : bitseq) : bitseq := [seq ~~ b | b <- m].

(** [t[m]]: the selected elements, as a 1-dimensional tensor. *)
Definition masked_select (t : Tensor) (m : bitseq) : Tensor :=
  let s := mask m (data t) in mkTensor [:: size s] s.

(** [torch.empty_like t]: the shape of [t] over uninitialised memory, whose
    contents [junk] are arbitrary. *)
Definition empty_like (junk : nat -> R) (t : Tensor) : Tensor :=
  mkTensor (shape t) (mkseq junk (size (data t))).

(** The selected positions of [vals] receive the elements of [src] in
    order. *)
Fixpoint scatter (vals : seq R) (m : bitseq) (src : seq R) : seq R :=
  match vals, m with
  | v :: vals', b :: m' =>
      if b then head v src :: scatter vals' m' (behead src)
      else v :: scatter vals' m' src
  | _, _ => vals
  end.

(** [vals[m] = src].  The mask must cover [vals]; [src] must have as many
    elements as the mask selects, or a single one, which is then
    broadcast. *)
Definition masked_assign (vals : Tensor) (m : bitseq) (src : Tensor) :
  result Tensor :=
  if size m != size (data vals) then Raise IndexError
  else if size (data src) == count id m then
    Ok (mkTensor (shape vals) (scatter (data vals) m (data src)))
  else if size (data src) == 1%N then
    Ok (mkTensor (shape vals)
          (scatter (data vals) m (nseq (count id m) (head 0 (data src)))))
  else Raise RuntimeError.

(** *** Stable log-EI *)

Definition standard_logei (junk : nat -> R) (z : Tensor) : result Tensor :=
  let small := tlts z (-25) in
  let vals := empty_like junk z in
  let z_small := masked_select z small in
  let z_normal := masked_select z (mask_not small) in
  let sqrt_2pi := sqrt (2 * PI) in
  let cdf := smul (1/2) (terfc (tmuls (tneg z_normal) (sqrt (1/2)))) in
  let pdf := tmuls (texp (smul (- (1/2)) (tsquare z_normal))) (1 / sqrt_2pi) in
  vals <-- masked_assign vals (mask_not small)
             (tlog (tadd (tmul z_normal cdf) pdf)) ;;
  let r := smul (sqrt (1/2 * PI))
             (terfcx (tmuls (tneg z_small) (sqrt (1/2)))) in
  masked_assign vals small
    (tadd (smul (- (1/2)) (tsquare z_small))
       (tlog (tmuls (tadds (tmul z_small r) 1) (1 / sqrt_2pi)))).

Definition logei (junk : nat -> R) (mean var : Tensor) (f0 : R) :
  result Tensor :=
  let sigma := tsqrt var in
  st_val <-- standard_logei junk (tdiv (tsubs mean f0) sigma) ;;
  let val := tadd (tlog sigma) st_val in
  Ok val.

(** *** Indexing *)

(** [np.argmax]: the first index of the largest element of the flattened
    array; a zero-size array has none. *)
Fixpoint argmax_from (best_i : nat) (best : R) (i : nat) (s : seq R) : nat :=
  match s with
  | [::] => best_i
  | x :: s' =>
      if Rltb best x then argmax_from i x i.+1 s'
      else argmax_from best_i best i.+1 s'
  end.

Definition np_argmax (t : Tensor) : result nat :=
  match data t with
  | [::] => Raise ValueError
  | x :: s => Ok (argmax_from 0 x 1 s)
  end.

(** [t[i]]: the slice at index [i] of the first axis. *)
Definition index0 (t : Tensor) (i : nat) : result Tensor :=
  match shape t with
  | [::] => Raise IndexError
  | n0 :: sh =>
      if (i < n0)%N then
        let k := foldr muln 1%N sh in
        Ok (mkTensor sh (take k (drop (i * k)%N (data t))))
      else Raise IndexError
  end.

(** [t[i, :]] *)
Definition row (t : Tensor) (i : nat) : result Tensor :=
  if (ndim t < 2)%N then Raise IndexError else index0 t i.

(** *** Collaborators

    The kernel and posterior of [optuna._gp.gp], the search space and its
    sampler of [optuna._gp.search_space], and torch's reverse-mode
    differentiation are outside this module.  They are opaque,
    deterministic functions, and they do not modify their arguments. *)

Class Collaborators : Type := {
  KernelParamsTensor : Type;
  (** [kernel_params.noise_var.item()] *)
  noise_var : KernelParamsTensor -> R;
  ScaleType : eqType;
  CATEGORICAL : ScaleType;
  SearchSpace : Type;
  scale_types : SearchSpace -> seq ScaleType;
  (** [kernel(is_categorical, kernel_params, A, B)] *)
  kernel : forall n m d : nat,
    bitseq -> KernelParamsTensor -> 'M[R]_(n, d) -> 'M[R]_(m, d) -> 'M[R]_(n, m);
  (** [posterior(kernel_params, X, is_categorical, cov_Y_Y_inv,
      cov_Y_Y_inv_Y, x)], the pair (mean, var) *)
  posterior : forall n d : nat,
    KernelParamsTensor -> 'M[R]_(n, d) -> bitseq -> 'M[R]_n -> 'cV[R]_n ->
    Tensor -> Tensor * Tensor;
  RandomState : Type;
  (** [sample_normalized_params(n, search_space, rng)] for a given state of
      the generator *)
  sample_normalized_params : nat -> SearchSpace -> RandomState -> Tensor;
  (** the component [i] of the gradient at [x] of a scalar-valued function,
      as [backward] leaves it in [x.grad] *)
  gradient : (Tensor -> result Tensor) -> Tensor -> nat -> R
}.

Section AcquisitionFunctions.

Context {C : Collaborators}.

(** [search_space.scale_types == ScaleType.CATEGORICAL] *)
Definition is_categorical (ss : SearchSpace) : bitseq :=
  [seq t == CATEGORICAL | t <- scale_types ss].

(** [A[np.diag_indices(n)] += c] *)
Definition add_diag (n : nat) (A : 'M[R]_n) (c : R) : 'M[R]_n :=
  \matrix_(i, j) if i == j then A i j + c else A i j.

(** [np.linalg.inv]: the inverse, [LinAlgError] on a singular matrix. *)
Definition linalg_inv (n : nat) (A : 'M[R]_n) : result 'M[R]_n :=
  if A \in unitmx then Ok (invmx A) else Raise LinAlgError.

(** [np.max] of a vector; a zero-size array has no maximum. *)
Definition np_max (n : nat) (Y : 'cV[R]_n) : result R :=
  match [seq Y i ord0 | i <- enum 'I_n] with
  | [::] => Raise ValueError
  | y :: ys => Ok (foldl Rmax y ys)
  end.

Section Instance.

(** [n] observations in [d] dimensions: [X] is n x d, [Y] has length n. *)
Variables n d : nat.

Record BaseAcquisitionFunction : Type := mkBase {
  kernel_params : KernelParamsTensor;
  search_space : SearchSpace;
  X : 'M[R]_(n, d);
  cov_Y_Y_inv : 'M[R]_n;
  cov_Y_Y_inv_Y : 'cV[R]_n
}.

(** The three concrete classes, each with the attributes its [__init__]
    adds to those of the base class. *)
Inductive AcquisitionFunction : Type :=
  | LogEI (base : BaseAcquisitionFunction) (max_Y acqf_stabilizing_noise : R)
  | UCB (base : BaseAcquisitionFunction) (beta : R)
  | LCB (base : BaseAcquisitionFunction) (beta : R).

Definition base_of (acqf : AcquisitionFunction) : BaseAcquisitionFunction :=
  match acqf with
  | LogEI b _ _ => b
  | UCB b _ => b
  | LCB b _ => b
  end.

(** **** Construction *)

Definition BaseAcquisitionFunction_init
  (kp : KernelParamsTensor) (ss : SearchSpace) (X0 : 'M[R]_(n, d)) (Y : 'cV[R]_n) :
  result BaseAcquisitionFunction :=
  let cov_Y_Y := kernel (is_categorical ss) kp X0 X0 in
  let cov_Y_Y := add_diag cov_Y_Y (noise_var kp) in
  inv <-- linalg_inv cov_Y_Y ;;
  Ok (mkBase kp ss X0 inv (inv *m Y)%R).

(** [acqf_stabilizing_noise: float = 1e-12] *)
Definition default_acqf_stabilizing_noise : R := 1e-12.

Definition LogEI_init
  (kp : KernelParamsTensor) (ss : SearchSpace) (X0 : 'M[R]_(n, d)) (Y : 'cV[R]_n)
  (acqf_stabilizing_noise : option R) : result AcquisitionFunction :=
  b <-- BaseAcquisitionFunction_init kp ss X0 Y ;;
  m <-- np_max Y ;;
  Ok (LogEI b m (odflt default_acqf_stabilizing_noise acqf_stabilizing_noise)).

Definition UCB_init
  (kp : KernelParamsTensor) (ss : SearchSpace) (X0 : 'M[R]_(n, d)) (Y : 'cV[R]_n)
  (beta : R) : result AcquisitionFunction :=
  b <-- BaseAcquisitionFunction_init kp ss X0 Y ;;
  Ok (UCB b beta).

Definition LCB_init
  (kp : KernelParamsTensor) (ss : SearchSpace) (X0 : 'M[R]_(n, d)) (Y : 'cV[R]_n)
  (beta : R) : result AcquisitionFunction :=
  b <-- BaseAcquisitionFunction_init kp ss X0 Y ;;
  Ok (LCB b beta).

(** **** Methods

    A method runs in a world that holds the instance it is called on, the
    contents of uninitialised memory and the state of the default random
    source.  It returns a value or raises, and leaves a world behind. *)

Record World : Type := mkWorld {
  w_acqf : AcquisitionFunction;
  w_junk : nat -> R;
  w_default_rng : RandomState
}.

Definition M (A : Type) : Type := World -> result A * World.

Definition ret {A : Type} (a : A) : M A := fun w => (Ok a, w).

Definition raise {A : Type} (e : exn) : M A := fun w => (Raise e, w).

Definition bind {A B : Type} (c : M A) (k : A -> M B) : M B :=
  fun w =>
    match c w with
    | (Ok a, w') => k a w'
    | (Raise e, w') => (Raise e, w')
    end.

Definition lift {A : Type} (r : result A) : M A := fun w => (r, w).

Definition this : M AcquisitionFunction := fun w => (Ok (w_acqf w), w).

Definition uninitialised : M (nat -> R) := fun w => (Ok (w_junk w), w).

Definition default_rng : M RandomState := fun w => (Ok (w_default_rng w), w).

Definition snapshot : M World := fun w => (Ok w, w).

Definition assert (b : bool) : M unit :=
  if b then ret tt else raise AssertionError.

Notation "x <~ c ;; k" := (bind c (fun x => k))
  (at level 61, c at next level, right associativity).

Definition _get_mean_var (x : Tensor) : M (Tensor * Tensor) :=
  self <~ this ;;
  let b := base_of self in
  ret (posterior (kernel_params b) (X b) (is_categorical (search_space b))
         (cov_Y_Y_inv b) (cov_Y_Y_inv_Y b) x).

(** The [eval] hook, dispatched on the class of the instance. *)
Definition eval (x : Tensor) : M Tensor :=
  self <~ this ;;
  match self with
  | LogEI _ max_Y acqf_stabilizing_noise =>
      mv <~ _get_mean_var x ;;
      junk <~ uninitialised ;;
      lift (logei junk mv.1 (tadds mv.2 acqf_stabilizing_noise) max_Y)
  | UCB _ beta =>
      mv <~ _get_mean_var x ;;
      ret (ucb mv.1 mv.2 beta)
  | LCB _ beta =>
      mv <~ _get_mean_var x ;;
      ret (lcb mv.1 mv.2 beta)
  end.

(** [torch.no_grad], [from_numpy], [detach] and [numpy] do not change
    values. *)
Definition eval_no_grad (x : Tensor) : M Tensor := eval x.

(** [val.backward()] needs a one-element output. *)
Definition backward (val : Tensor) : M unit :=
  if size (data val) == 1%N then ret tt else raise RuntimeError.

(** [val.item()] *)
Definition item (val : Tensor) : M R :=
  match data val with
  | [:: v] => ret v
  | _ => raise RuntimeError
  end.

Definition eval_with_grad (x : Tensor) : M (R * Tensor) :=
  _ <~ assert (ndim x == 1%N) ;;
  w <~ snapshot ;;
  val <~ eval x ;;
  _ <~ backward val ;;
  let grad :=
    mkTensor (shape x)
      (mkseq (gradient (fun x' => (eval x' w).1) x) (size (data x))) in
  v <~ item val ;;
  ret (v, grad).

(** **** The sample-based maximiser *)

(** Modelled from the spec: the sampler draws from the random source if one
    is supplied, otherwise from a default source. *)
Definition draw (n_samples : nat) (ss : SearchSpace) (rng : option RandomState) :
  M Tensor :=
  g <~ (if rng is Some g then ret g else default_rng) ;;
  ret (sample_normalized_params n_samples ss g).

(** [optimize_acqf_sample(acqf, n_samples=2048, rng=None)], for the
    instance [acqf] that the world holds. *)
Definition optimize_acqf_sample
  (n_samples : option nat) (rng : option RandomState) : M (Tensor * Tensor) :=
  let n_samples := odflt 2048%N n_samples in
  acqf <~ this ;;
  xs <~ draw n_samples (search_space (base_of acqf)) rng ;;
  res <~ eval_no_grad xs ;;
  best_i <~ lift (np_argmax res) ;;
  x <~ lift (row xs best_i) ;;
  v <~ lift (index0 res best_i) ;;
  ret (x, v).

End Instance.

End AcquisitionFunctions.

(** ** Properties *)

(** *** Elementwise operations *)

Lemma tmap_tmap (f g : R -> R) (t : Tensor) :
  tmap f (tmap g t) = tmap (fun x => f (g x)) t.
Proof. by rewrite /tmap /= -map_comp. Qed.

Lemma tzip_tmap (f : R -> R -> R) (g h : R -> R) (t : Tensor) :
  tzip f (tmap g t) (tmap h t) = tmap (fun x => f (g x) (h x)) t.
Proof. by rewrite /tzip /tmap /= zip_map -map_comp. Qed.

Lemma tmap_idfun (t : Tensor) : tmap (fun x => x) t = t.
Proof. by case: t => sh s; rewrite /tmap /= map_id. Qed.

Lemma tzip_tmapr (f : R -> R -> R) (h : R -> R) (t : Tensor) :
  tzip f t (tmap h t) = tmap (fun x => f x (h x)) t.
Proof. by rewrite -{1}(tmap_idfun t) tzip_tmap. Qed.

Lemma tzip_tmapl (f : R -> R -> R) (g : R -> R) (t : Tensor) :
  tzip f (tmap g t) t = tmap (fun x => f (g x) x) t.
Proof. by rewrite -{2}(tmap_idfun t) tzip_tmap. Qed.

Lemma eq_tmap (f g : R -> R) (t : Tensor) : f =1 g -> tmap f t = tmap g t.
Proof. by move=> fg; rewrite /tmap (eq_map fg). Qed.

(** Fusing a chain of elementwise operations over one tensor. *)
Definition tfuse :=
  (tmap_tmap, tzip_tmap, tzip_tmapr, tzip_tmapl).

(** *** Masked assignment *)

Lemma size_scatter (vals : seq R) (m : bitseq) (src : seq R) :
  size (scatter vals m src) = size vals.
Proof.
  elim: vals m src => [|v vals IH] [|b m] src //=.
  by case: b => /=; rewrite IH.
Qed.

Lemma masked_assign_ok (vals : Tensor) (m : bitseq) (src : Tensor) :
  size m = size (data vals) -> size (data src) = count id m ->
  masked_assign vals m src =
  Ok (mkTensor (shape vals) (scatter (data vals) m (data src))).
Proof. by move=> szm szs; rewrite /masked_assign szm szs !eqxx. Qed.

(** Assigning [f] of the unselected elements and then [g] of the selected
    ones overwrites every position. *)
Lemma scatter_both (p : pred R) (f g : R -> R) (zs vals : seq R) :
  size vals = size zs ->
  let m := [seq p x | x <- zs] in
  scatter (scatter vals (mask_not m) [seq f x | x <- mask (mask_not m) zs])
    m [seq g x | x <- mask m zs]
  = [seq if p x then g x else f x | x <- zs].
Proof.
  elim: zs vals => [|x zs IH] [|v vals] //= [sz].
  by case: (p x) => /=; rewrite IH.
Qed.

(** *** The two branches of [standard_logei], as the code computes them *)

Definition logei_normal_branch (z : R) : R :=
  ln (z * (1/2 * Special.erfc (- z * sqrt (1/2)))
      + exp (- (1/2) * z ^ 2) * (1 / sqrt (2 * PI))).

Definition logei_small_branch (z : R) : R :=
  - (1/2) * z ^ 2
  + ln ((z * (sqrt (1/2 * PI) * Special.erfcx (- z * sqrt (1/2))) + 1)
        * (1 / sqrt (2 * PI))).

Definition logei_pointwise (z : R) : R :=
  if Rltb z (-25) then logei_small_branch z else logei_normal_branch z.

Lemma masked_assign_tmap (vals : Tensor) (m : bitseq) (f : R -> R) (z : Tensor) :
  size m = size (data z) -> size (data vals) = size (data z) ->
  masked_assign vals m (tmap f (masked_select z m)) =
  Ok (mkTensor (shape vals)
        (scatter (data vals) m [seq f x | x <- mask m (data z)])).
Proof.
  move=> szm szv; apply: masked_assign_ok; first by rewrite szm szv.
  by rewrite /= size_map size_mask.
Qed.

Lemma standard_logei_pointwise (junk : nat -> R) (z : Tensor) :
  standard_logei junk z = Ok (tmap logei_pointwise z).
Proof.
  rewrite /standard_logei.
  rewrite /smul /terfc /terfcx /tmuls /tneg /texp /tsquare /tlog /tadd /tmul
    /tadds !tfuse.
  have szm : size (tlts z (-25)) = size (data z) by rewrite /tlts size_map.
  have szn : size (mask_not (tlts z (-25))) = size (data z).
    by rewrite /mask_not size_map.
  have sze : size (data (empty_like junk z)) = size (data z).
    by rewrite /= size_mkseq.
  rewrite (masked_assign_tmap _ szn sze) /rbind.
  rewrite masked_assign_tmap //; first by rewrite /= size_scatter.
  rewrite /tlts /= (@scatter_both (fun x => Rltb x (-25))) ?size_mkseq //.
Qed.

Lemma nth_tmap (f : R -> R) (t : Tensor) (i : nat) :
  (i < size (data t))%N -> nth 0 (data (tmap f t)) i = f (nth 0 (data t) i).
Proof. by move=> lti; rewrite /= (nth_map 0). Qed.

Lemma nth_tzip (f : R -> R -> R) (a b : Tensor) (i : nat) :
  size (data a) = size (data b) -> (i < size (data a))%N ->
  nth 0 (data (tzip f a b)) i = f (nth 0 (data a) i) (nth 0 (data b) i).
Proof.
  move=> sz lti.
  have ltz : (i < size (zip (data a) (data b)))%N.
    by rewrite size_zip -sz /minn ltnn.
  by rewrite /= (nth_map (0, 0)) ?nth_zip.
Qed.

Lemma size_tzip (f : R -> R -> R) (a b : Tensor) :
  size (data a) = size (data b) -> size (data (tzip f a b)) = size (data a).
Proof. by move=> sz; rewrite /= size_map size_zip -sz /minn ltnn. Qed.

Lemma RltbP (x y : R) : reflect (x < y) (Rltb x y).
Proof. by rewrite /Rltb; case: (Rlt_dec x y) => h; constructor. Qed.




(** C6: for var >= 0 and beta >= 0, [ucb] is mean + sqrt(beta*var) and
    [lcb] is mean - sqrt(beta*var), elementwise; their difference is
    2*sqrt(beta*var); with beta = 0 both are the mean. *)
Theorem ucb_lcb_closed_form (mean var : Tensor) (beta : R) :
  size (data mean) = size (data var) ->
  (forall v : R, v \in data var -> 0 <= v) ->
  0 <= beta ->
  [/\ forall i : nat, (i < size (data mean))%N ->
        let m := nth 0 (data mean) i in
        let v := nth 0 (data var) i in
        let u := nth 0 (data (ucb mean var beta)) i in
        let l := nth 0 (data (lcb mean var beta)) i in
        [/\ u = m + sqrt (beta * v), l = m - sqrt (beta * v)
          & u - l = 2 * sqrt (beta * v)],
      shape (ucb mean var beta) = shape mean /\
      shape (lcb mean var beta) = shape mean
    & beta = 0 -> ucb mean var beta = mean /\ lcb mean var beta = mean].
Proof.
  move=> sz _ _; split=> //.
  - move=> i lti m v u l.
    have szs : size (data mean) = size (data (tsqrt (smul beta var))).
      by rewrite /= !size_map.
    have eu : u = m + sqrt (beta * v).
      by rewrite /u /ucb /tadd nth_tzip // /tsqrt /smul tmap_tmap nth_tmap -?sz.
    have el : l = m - sqrt (beta * v).
      by rewrite /l /lcb /tsub nth_tzip // /tsqrt /smul tmap_tmap nth_tmap -?sz.
    by split=> //; rewrite eu el; lra.
  - move=> ->; rewrite /ucb /lcb /tadd /tsub /tsqrt /smul tmap_tmap.
    have e0 : (fun x : R => sqrt (0 * x)) =1 (fun=> 0).
      by move=> x; rewrite Rmult_0_l sqrt_0.
    rewrite (eq_tmap _ e0).
    case: mean sz => sh s /= sz.
    have zipc (g : R -> R -> R) : (forall x, g x 0 = x) ->
        [seq g p.1 p.2 | p <- zip s [seq 0 | _ <- data var]] = s.
      move=> g0; elim: s (data var) sz => [|x s IH] [|y t] //= [sz].
      by rewrite g0 IH.
    by rewrite /tzip /= !zipc // => x; lra.
Qed.
(** *** Log-EI is the logarithm of the expected improvement *)

Lemma logei_value (junk : nat -> R) (mean var : Tensor) (f0 : R) :
  logei junk mean var f0 =
  Ok (tadd (tlog (tsqrt var))
        (tmap logei_pointwise (tdiv (tsubs mean f0) (tsqrt var)))).
Proof. by rewrite /logei standard_logei_pointwise. Qed.

Lemma logei_pointwise_value (z : R) :
  logei_pointwise z = ln (z * Normal.cdf z + Normal.pdf z).
Proof.
  rewrite /logei_pointwise; case: RltbP => _.
  - exact: Normal.small_branch_value.
  - exact: Normal.normal_branch_value.
Qed.

(** C1: for variances that are all positive, [logei(mean, var, f0)] takes
    sigma = sqrt(var) and z = (mean - f0)/sigma and returns
    log(sigma) + standard_logei(z); each element of the result is the
    logarithm of E[max(0, y - f0)] for y ~ N(mean, var). *)
Theorem logei_expected_improvement
  (junk : nat -> R) (mean var : Tensor) (f0 : R) :
  size (data mean) = size (data var) ->
  (forall v : R, v \in data var -> 0 < v) ->
  let sigma := tsqrt var in
  let z := tdiv (tsubs mean f0) sigma in
  exists st_val : Tensor,
    [/\ standard_logei junk z = Ok st_val,
        logei junk mean var f0 = Ok (tadd (tlog sigma) st_val),
        shape (tadd (tlog sigma) st_val) = shape var
      & forall i : nat, (i < size (data mean))%N ->
          let m := nth 0 (data mean) i in
          let v := nth 0 (data var) i in
          let out := nth 0 (data (tadd (tlog sigma) st_val)) i in
          [/\ nth 0 (data sigma) i = sqrt v,
              nth 0 (data z) i = (m - f0) / sqrt v,
              out = ln (sqrt v) + nth 0 (data st_val) i
            & exists E : R,
                [/\ Normal.normal_expectation m v (fun y => Rmax 0 (y - f0)) E,
                    forall E' : R,
                      Normal.normal_expectation m v
                        (fun y => Rmax 0 (y - f0)) E' -> E' = E,
                    0 < E
                  & out = ln E]]].
Proof.
  move=> sz var_pos sigma z.
  exists (tmap logei_pointwise z); split=> //.
  - exact: standard_logei_pointwise.
  - exact: logei_value.
  move=> i lti m v out.
  have ltv : (i < size (data var))%N by rewrite -sz.
  have v_pos : 0 < v by apply: var_pos; exact: mem_nth.
  have szs : size (data (tsubs mean f0)) = size (data sigma).
    by rewrite /= !size_map.
  have ltz : (i < size (data z))%N by rewrite size_tzip // /= size_map.
  have e_sigma : nth 0 (data sigma) i = sqrt v by rewrite nth_tmap.
  have e_z : nth 0 (data z) i = (m - f0) / sqrt v.
    by rewrite nth_tzip ?e_sigma ?nth_tmap //= size_map.
  have e_out : out = ln (sqrt v) + nth 0 (data (tmap logei_pointwise z)) i.
    have szl : size (data (tlog sigma)) = size (data (tmap logei_pointwise z)).
      by rewrite /= !size_map size_zip !size_map -sz /minn ltnn.
    have lts : (i < size (data sigma))%N by rewrite /= size_map.
    have ltl : (i < size (data (tlog sigma)))%N by rewrite /= !size_map.
    by rewrite /out (nth_tzip _ szl ltl) /tlog nth_tmap // e_sigma.
  split=> //.
  have [expect E_pos] := Normal.normal_expected_improvement m v f0 v_pos.
  exists (sqrt v * ((m - f0) / sqrt v * Normal.cdf ((m - f0) / sqrt v)
                    + Normal.pdf ((m - f0) / sqrt v))); split=> //.
    by move=> E' expect'; exact: Normal.integral_R_unique expect' expect.
  rewrite e_out nth_tmap // e_z logei_pointwise_value.
  by apply: Normal.ln_expected_improvement; exact: sqrt_lt_R0.
Qed.

(** *** Construction *)

Section ConstructionProperties.

Context {C : Collaborators}.
Variables n d : nat.

Lemma add_diagE (A : 'M[R]_n) (c : R) : add_diag A c = (A + c%:M)%R.
Proof.
  apply/matrixP => i j; rewrite !mxE.
  case: (i == j) => /=.
  - by rewrite GRing.mulr1n.
  - by rewrite GRing.mulr0n GRing.addr0.
Qed.

Lemma linalg_inv_unit (A : 'M[R]_n) :
  A \in unitmx -> linalg_inv A = Ok (invmx A).
Proof. by rewrite /linalg_inv => ->. Qed.

Lemma foldl_Rmax_ge (y : R) (ys : seq R) :
  y <= foldl Rmax y ys /\ (forall x : R, x \in ys -> x <= foldl Rmax y ys).
Proof.
  elim: ys y => [|z ys IH] y /=; first by split=> //; exact: Rle_refl.
  have [ge_max ge_all] := IH (Rmax y z); split.
  - exact: Rle_trans (Rmax_l y z) ge_max.
  - move=> x; rewrite in_cons => /orP [/eqP -> | /ge_all //].
    exact: Rle_trans (Rmax_r y z) ge_max.
Qed.

Lemma foldl_Rmax_in (y : R) (ys : seq R) : foldl Rmax y ys \in y :: ys.
Proof.
  elim: ys y => [|z ys IH] y /=; first by rewrite mem_head.
  have := IH (Rmax y z); rewrite !in_cons.
  case/orP => [/eqP -> | ->]; last by rewrite !orbT.
  rewrite /Rmax; case: (Rle_dec y z) => _; by rewrite eqxx ?orbT.
Qed.

Lemma np_max_spec (Y : 'cV[R]_n) (m : R) :
  np_max Y = Ok m ->
  (exists i : 'I_n, Y i ord0 = m) /\ (forall i : 'I_n, Y i ord0 <= m).
Proof.
  rewrite /np_max.
  case eqs : [seq Y i ord0 | i <- enum 'I_n] => [|y ys] // [<-].
  have memY (i : 'I_n) : Y i ord0 \in y :: ys.
    by rewrite -eqs; apply: map_f; rewrite mem_enum.
  have [ge_y ge_ys] := foldl_Rmax_ge y ys; split.
  - have := foldl_Rmax_in y ys; rewrite -eqs => /mapP [i _ ->].
    by exists i.
  - move=> i; have := memY i; rewrite in_cons => /orP [/eqP -> // | ].
    exact: ge_ys.
Qed.

Lemma np_max_nonempty (Y : 'cV[R]_n) : (0 < n)%N -> exists m : R, np_max Y = Ok m.
Proof.
  rewrite /np_max => n_gt0.
  case eqs : [seq Y i ord0 | i <- enum 'I_n] => [|y ys]; last by eexists.
  by have := f_equal size eqs; rewrite size_map size_enum_ord /= => n0; rewrite n0 in n_gt0.
Qed.

(** C3: [BaseAcquisitionFunction.__init__] takes the kernel matrix K(X,X)
    from the kernel collaborator with the categorical mask, adds noise_var
    to each of its diagonal entries, stores the inverse of the result as
    [cov_Y_Y_inv] and [cov_Y_Y_inv @ Y] as [cov_Y_Y_inv_Y]; with the
    regularised matrix invertible, [cov_Y_Y_inv @ (K(X,X) + noise_var*I)]
    is the identity. *)
Theorem init_covariance_inverse
  (kp : KernelParamsTensor) (ss : SearchSpace) (X0 : 'M[R]_(n, d)) (Y : 'cV[R]_n) :
  let K := kernel [seq t == CATEGORICAL | t <- scale_types ss] kp X0 X0 in
  let regularised : 'M[R]_n :=
    (\matrix_(i, j) if i == j then (K i j + noise_var kp)%real else K i j)%R in
  regularised \in unitmx ->
  exists self : BaseAcquisitionFunction n d,
    [/\ BaseAcquisitionFunction_init kp ss X0 Y = Ok self,
        [/\ kernel_params self = kp, search_space self = ss & X self = X0],
        regularised = (K + (noise_var kp)%:M)%R,
        cov_Y_Y_inv self = invmx regularised /\
        cov_Y_Y_inv_Y self = (cov_Y_Y_inv self *m Y)%R
      & (cov_Y_Y_inv self *m (K + (noise_var kp)%:M))%R = 1%:M%R].
Proof.
  move=> K regularised unit_reg.
  exists (mkBase kp ss X0 (invmx regularised) (invmx regularised *m Y)%R).
  have regE : regularised = (K + (noise_var kp)%:M)%R by exact: add_diagE.
  split=> //.
  - by rewrite /BaseAcquisitionFunction_init linalg_inv_unit.
  - by rewrite /= -regE mulVmx.
Qed.

(** C5: a [LogEI] instance holds the maximum of Y as [max_Y] and the
    stabilising noise handed to it, 1e-12 when none is; its [eval] is
    [logei(mean, var + acqf_stabilizing_noise, max_Y)] for the posterior
    moments (mean, var) of the point or batch. *)
Theorem LogEI_state_and_eval
  (kp : KernelParamsTensor) (ss : SearchSpace) (X0 : 'M[R]_(n, d)) (Y : 'cV[R]_n)
  (noise : option R) (self : AcquisitionFunction n d) :
  LogEI_init kp ss X0 Y noise = Ok self ->
  exists (b : BaseAcquisitionFunction n d) (max_Y stab : R),
    [/\ self = LogEI b max_Y stab,
        BaseAcquisitionFunction_init kp ss X0 Y = Ok b,
        (exists i : 'I_n, Y i ord0 = max_Y) /\
        (forall i : 'I_n, Y i ord0 <= max_Y),
        stab = (if noise is Some s then s else 1 / 10 ^ 12)
      & forall (w : World n d) (x : Tensor),
          w_acqf w = self ->
          let mv :=
            posterior (kernel_params b) (X b)
              [seq t == CATEGORICAL | t <- scale_types (search_space b)]
              (cov_Y_Y_inv b) (cov_Y_Y_inv_Y b) x in
          eval x w = (logei (w_junk w) mv.1 (tadds mv.2 stab) max_Y, w)].
Proof.
  rewrite /LogEI_init.
  case eb : (BaseAcquisitionFunction_init kp ss X0 Y) => [b|] //=.
  case em : (np_max Y) => [m|] //= [<-].
  exists b, m, (odflt default_acqf_stabilizing_noise noise); split=> //.
  - exact: np_max_spec.
  - by case: noise => //=; rewrite /default_acqf_stabilizing_noise; lra.
  - by case=> acqf junk rng x /= ->.
Qed.

End ConstructionProperties.

(** *** Methods *)

Section MethodProperties.

Context {C : Collaborators}.
Variables n d : nat.

(** A computation that leaves the world as it found it. *)
Definition read_only (A : Type) (c : M n d A) : Prop :=
  forall w : World n d, (c w).2 = w.

Lemma read_only_ret (A : Type) (a : A) : read_only (ret (n:=n) (d:=d) a).
Proof. by []. Qed.

Lemma read_only_raise (A : Type) (e : exn) :
  read_only (raise (n:=n) (d:=d) (A:=A) e).
Proof. by []. Qed.

Lemma read_only_lift (A : Type) (r : result A) :
  read_only (lift (n:=n) (d:=d) r).
Proof. by []. Qed.

Lemma read_only_this : read_only (this (n:=n) (d:=d)).
Proof. by []. Qed.

Lemma read_only_uninitialised : read_only (uninitialised (n:=n) (d:=d)).
Proof. by []. Qed.

Lemma read_only_default_rng : read_only (default_rng (n:=n) (d:=d)).
Proof. by []. Qed.

Lemma read_only_snapshot : read_only (snapshot (n:=n) (d:=d)).
Proof. by []. Qed.

Lemma read_only_assert (b : bool) : read_only (assert (n:=n) (d:=d) b).
Proof. by case: b. Qed.

Lemma read_only_bind (A B : Type) (c : M n d A) (k : A -> M n d B) :
  read_only c -> (forall a : A, read_only (k a)) -> read_only (bind c k).
Proof.
  move=> rc rk w; rewrite /bind.
  have := rc w; case: (c w) => [[a|e] w'] /= -> //.
  exact: rk.
Qed.

Lemma read_only_backward (val : Tensor) : read_only (backward (n:=n) (d:=d) val).
Proof. by rewrite /backward; case: ifP. Qed.

Lemma read_only_item (val : Tensor) : read_only (item (n:=n) (d:=d) val).
Proof. by rewrite /item; case: (data val) => [|v [|? ?]]. Qed.

Create HintDb frame.

#[local] Hint Resolve read_only_ret read_only_raise read_only_lift
  read_only_this read_only_uninitialised read_only_default_rng
  read_only_snapshot read_only_assert read_only_backward read_only_item : frame.

Ltac frame :=
  repeat (apply: read_only_bind => [|?]); auto with frame.

Lemma read_only_get_mean_var (x : Tensor) : read_only (_get_mean_var (n:=n) (d:=d) x).
Proof. by rewrite /_get_mean_var; frame. Qed.

Lemma read_only_eval (x : Tensor) : read_only (eval (n:=n) (d:=d) x).
Proof.
  rewrite /eval; apply: read_only_bind => [|[b m s|b beta|b beta]];
    first exact: read_only_this.
  all: apply: read_only_bind => [|mv]; first exact: read_only_get_mean_var.
  all: by frame.
Qed.

Lemma read_only_eval_with_grad (x : Tensor) :
  read_only (eval_with_grad (n:=n) (d:=d) x).
Proof.
  rewrite /eval_with_grad.
  apply: read_only_bind => [|_]; first exact: read_only_assert.
  apply: read_only_bind => [|w0]; first exact: read_only_snapshot.
  apply: read_only_bind => [|val]; first exact: read_only_eval.
  by frame.
Qed.

Lemma read_only_draw (k : nat) (ss : SearchSpace) (rng : option RandomState) :
  read_only (draw (n:=n) (d:=d) k ss rng).
Proof. by rewrite /draw; case: rng => [g|]; frame. Qed.

Lemma read_only_optimize_acqf_sample
  (n_samples : option nat) (rng : option RandomState) :
  read_only (optimize_acqf_sample (n:=n) (d:=d) n_samples rng).
Proof.
  rewrite /optimize_acqf_sample.
  apply: read_only_bind => [|acqf]; first exact: read_only_this.
  apply: read_only_bind => [|xs]; first exact: read_only_draw.
  apply: read_only_bind => [|res]; first exact: read_only_eval.
  by frame.
Qed.

(** C9: [eval], [eval_no_grad], [eval_with_grad] and
    [optimize_acqf_sample] leave the instance as it was constructed: its
    X, its cached [cov_Y_Y_inv] and [cov_Y_Y_inv_Y], and every other
    attribute. *)
Theorem instance_unchanged (w : World n d) (x : Tensor)
  (n_samples : option nat) (rng : option RandomState) :
  [/\ w_acqf (eval x w).2 = w_acqf w,
      w_acqf (eval_no_grad x w).2 = w_acqf w,
      w_acqf (eval_with_grad x w).2 = w_acqf w
    & w_acqf (optimize_acqf_sample n_samples rng w).2 = w_acqf w].
Proof.
  split.
  - by rewrite read_only_eval.
  - by rewrite /eval_no_grad read_only_eval.
  - by rewrite read_only_eval_with_grad.
  - by rewrite read_only_optimize_acqf_sample.
Qed.

End MethodProperties.

Section EvaluationContracts.

Context {C : Collaborators}.
Variables n d : nat.

(** The posterior moments that [_get_mean_var] hands to the formula. *)
Definition moments (w : World n d) (x : Tensor) : Tensor * Tensor :=
  let b := base_of (w_acqf w) in
  posterior (kernel_params b) (X b) (is_categorical (search_space b))
    (cov_Y_Y_inv b) (cov_Y_Y_inv_Y b) x.

(** The value of the formula of each class on given moments. *)
Definition formula (acqf : AcquisitionFunction n d) (mean var : Tensor) : Tensor :=
  match acqf with
  | LogEI _ max_Y noise =>
      let var' := tadds var noise in
      tadd (tlog (tsqrt var'))
        (tmap logei_pointwise (tdiv (tsubs mean max_Y) (tsqrt var')))
  | UCB _ beta => ucb mean var beta
  | LCB _ beta => lcb mean var beta
  end.

Lemma evalE (w : World n d) (x : Tensor) :
  eval x w = (Ok (formula (w_acqf w) (moments w x).1 (moments w x).2), w).
Proof.
  case: w => [[b m s|b beta|b beta] junk rng] //.
  by rewrite /eval /moments /bind /this /_get_mean_var /uninitialised /lift
    /ret /formula /= -/(logei _ _ _ _) logei_value.
Qed.

Lemma size_formula (acqf : AcquisitionFunction n d) (mean var : Tensor) :
  size (data mean) = size (data var) ->
  size (data (formula acqf mean var)) = size (data mean).
Proof.
  move=> sz; case: acqf => [b m s|b beta|b beta] /=;
    by rewrite !(size_map, size_zip) -sz /minn !ltnn.
Qed.

(** C8: [eval_with_grad] raises on an input that is not 1-dimensional; on
    a 1-dimensional input, for which the posterior yields one mean and one
    variance, it returns the single value of [eval] at the input, as a
    scalar, and the gradient of [eval] at the input, a vector of the shape
    of the input. *)
Theorem eval_with_grad_contract (w : World n d) (x : Tensor) :
  (ndim x <> 1%N -> eval_with_grad x w = (Raise AssertionError, w))
  /\ (ndim x = 1%N ->
      size (data (moments w x).1) = 1%N ->
      size (data (moments w x).2) = 1%N ->
      exists (v : R) (val grad : Tensor),
        [/\ eval x w = (Ok val, w) /\ data val = [:: v],
            grad =
              mkTensor (shape x)
                (mkseq (gradient (fun x' => (eval x' w).1) x) (size (data x))),
            eval_with_grad x w = (Ok (v, grad), w),
            shape grad = shape x /\ ndim grad = 1%N
          & size (data grad) = size (data x)]).
Proof.
  split.
  - by move/eqP/negbTE => nd; rewrite /eval_with_grad nd.
  move=> nd sz1 sz2.
  set val := formula (w_acqf w) (moments w x).1 (moments w x).2.
  have szv : size (data val) = 1%N by rewrite size_formula ?sz1 ?sz2.
  case ev : (data val) szv => [|v [|? ?]] // _.
  exists v, val.
  exists (mkTensor (shape x)
            (mkseq (gradient (fun x' => (eval x' w).1) x) (size (data x)))).
  split=> //=; last by rewrite size_mkseq.
  - by rewrite evalE.
  rewrite /eval_with_grad nd /bind /= evalE /backward -/val.
  have -> : size (data val) == 1%N by rewrite ev.
  by rewrite /item /= ev.
Qed.

(** C10: whenever [eval_with_grad] returns on a point, the scalar it
    returns is the value that [eval_no_grad] returns on that point. *)
Theorem eval_with_grad_value (w w' : World n d) (x : Tensor) (v : R) (grad : Tensor) :
  eval_with_grad x w = (Ok (v, grad), w') ->
  ndim x = 1%N /\
  exists val : Tensor,
    eval_no_grad x w = (Ok val, w') /\ data val = [:: v].
Proof.
  rewrite /eval_with_grad /eval_no_grad.
  case nd : (ndim x == 1%N) => //=; rewrite /bind /= evalE /backward.
  set val := formula _ _ _.
  case sz : (size (data val) == 1%N) => //=.
  rewrite /item; case ev : (data val) sz => [|u [|? ?]] //= _ [<- _ <-].
  split; first exact/eqP.
  by exists val.
Qed.

End EvaluationContracts.

(** *** The sample-based maximiser *)

Lemma argmax_from_spec (L pre s : seq R) (bi i : nat) (b : R) :
  L = pre ++ s -> size pre = i -> (bi < i)%N -> nth 0 L bi = b ->
  (forall j : nat, (j < i)%N -> nth 0 L j <= b) ->
  (forall j : nat, (j < bi)%N -> nth 0 L j < b) ->
  let r := argmax_from bi b i s in
  [/\ (r < size L)%N,
      forall j : nat, (j < size L)%N -> nth 0 L j <= nth 0 L r
    & forall j : nat, (j < r)%N -> nth 0 L j < nth 0 L r].
Proof.
  elim: s pre bi i b => [|x s IH] pre bi i b eqL szp lt_bi eqb le_b lt_b /=.
  - have szL : size L = i by rewrite eqL cats0.
    by rewrite szL eqb; split.
  have eqL' : L = rcons pre x ++ s by rewrite cat_rcons.
  have szp' : size (rcons pre x) = i.+1 by rewrite size_rcons szp.
  have nthi : nth 0 L i = x by rewrite eqL nth_cat szp ltnn subnn.
  case: RltbP => cmp.
  - apply: (IH (rcons pre x)) => // j.
    + rewrite ltnS leq_eqVlt => /orP [/eqP -> | /le_b lej].
      * by rewrite nthi; exact: Rle_refl.
      * by apply: Rlt_le; exact: Rle_lt_trans lej cmp.
    + by move/le_b => lej; exact: Rle_lt_trans lej cmp.
  - apply: (IH (rcons pre x)) => //; first exact: ltnW.
    move=> j; rewrite ltnS leq_eqVlt => /orP [/eqP -> | /le_b //].
    by rewrite nthi; exact: Rnot_lt_le.
Qed.

Lemma np_argmax_spec (t : Tensor) :
  (0 < size (data t))%N ->
  exists i : nat,
    [/\ np_argmax t = Ok i, (i < size (data t))%N,
        forall j : nat, (j < size (data t))%N ->
          nth 0 (data t) j <= nth 0 (data t) i
      & forall j : nat, (j < i)%N -> nth 0 (data t) j < nth 0 (data t) i].
Proof.
  rewrite /np_argmax; case: (data t) => [|x s] // _.
  have [] := @argmax_from_spec (x :: s) [:: x] s 0 1 x erefl erefl isT erefl.
  - by case=> // _; exact: Rle_refl.
  - by [].
  by move=> lt_r max_r first_r; exists (argmax_from 0 x 1 s).
Qed.

Lemma take1_drop (s : seq R) (i : nat) :
  (i < size s)%N -> take 1 (drop i s) = [:: nth 0 s i].
Proof. by move=> lti; rewrite (drop_nth 0 lti) /= take0. Qed.

Lemma index0_vector (t : Tensor) (k i : nat) :
  shape t = [:: k] -> size (data t) = k -> (i < k)%N ->
  index0 t i = Ok (mkTensor [::] [:: nth 0 (data t) i]).
Proof.
  by move=> sh sz lti; rewrite /index0 sh lti /= muln1 take1_drop ?sz.
Qed.

Lemma row_matrix (t : Tensor) (k dd i : nat) :
  shape t = [:: k; dd] -> (i < k)%N ->
  row t i = Ok (mkTensor [:: dd] (take dd (drop (i * dd) (data t)))).
Proof. by move=> sh lti; rewrite /row /index0 /ndim sh lti /= muln1. Qed.

Section Maximiser.

Context {C : Collaborators}.
Variables n d : nat.

(** C4: [optimize_acqf_sample] draws [n_samples] candidates (2048 when
    the count is not given), evaluates [eval_no_grad] once on the whole
    batch, and returns the candidate and the value at the first index of
    the largest value; with one sample it returns that candidate and its
    value. *)
Theorem optimize_acqf_sample_argmax
  (w : World n d) (n_samples : option nat) (rng : option RandomState)
  (dd : nat) (res : Tensor) :
  let count := if n_samples is Some k then k else 2048%N in
  let source := if rng is Some g then g else w_default_rng w in
  let xs :=
    sample_normalized_params count (search_space (base_of (w_acqf w))) source in
  (0 < count)%N ->
  shape xs = [:: count; dd] -> size (data xs) = (count * dd)%N ->
  (eval_no_grad xs w).1 = Ok res ->
  shape res = [:: count] -> size (data res) = count ->
  (exists i : nat,
     [/\ (i < count)%N,
         optimize_acqf_sample n_samples rng w =
         (Ok (mkTensor [:: dd] (take dd (drop (i * dd) (data xs))),
              mkTensor [::] [:: nth 0 (data res) i]), w),
         forall j : nat, (j < count)%N ->
           nth 0 (data res) j <= nth 0 (data res) i
       & forall j : nat, (j < i)%N -> nth 0 (data res) j < nth 0 (data res) i])
  /\ (count = 1%N ->
      optimize_acqf_sample n_samples rng w =
      (Ok (mkTensor [:: dd] (data xs), mkTensor [::] (data res)), w)).
Proof.
  move=> count source xs count_gt0 shx szx ev shr szr.
  have evw : eval xs w = (Ok res, w).
    by move: ev; rewrite /eval_no_grad evalE /= => ->.
  have [i [amax lti maxi firsti]] : exists i : nat,
      [/\ np_argmax res = Ok i, (i < count)%N,
          forall j : nat, (j < count)%N ->
            nth 0 (data res) j <= nth 0 (data res) i
        & forall j : nat, (j < i)%N -> nth 0 (data res) j < nth 0 (data res) i].
    have [|i []] := @np_argmax_spec res; first by rewrite szr.
    by rewrite szr => ? ? ? ?; exists i.
  have run : optimize_acqf_sample n_samples rng w =
      (Ok (mkTensor [:: dd] (take dd (drop (i * dd) (data xs))),
           mkTensor [::] [:: nth 0 (data res) i]), w).
    rewrite /optimize_acqf_sample /bind /this /draw /bind /=.
    have -> : (if rng is Some g then ret g else default_rng (d:=d)) w
              = (Ok source, w) by rewrite /source; case: (rng).
    rewrite /= -/count -/xs /eval_no_grad evw /lift amax.
    by rewrite (row_matrix shx lti) (index0_vector shr szr lti).
  split; first by exists i.
  move=> count1; rewrite run; move: lti szx szr; rewrite count1 mul1n.
  case: i {amax maxi firsti run} => [|//] _ szx szr.
  rewrite mul0n drop0 -szx take_size; congr (Ok (_, mkTensor _ _), _).
  by case: (data res) szr => [|v [|? ?]].
Qed.

End Maximiser.

Section Determinism.

Context {C : Collaborators}.
Variables n d : nat.

(** A computation whose outcome depends on the world through the instance
    only: not on uninitialised memory, not on the default random source. *)
Definition instance_only (A : Type) (c : M n d A) : Prop :=
  forall w1 w2 : World n d, w_acqf w1 = w_acqf w2 -> (c w1).1 = (c w2).1.

Lemma instance_only_bind (A B : Type) (c : M n d A) (k : A -> M n d B) :
  instance_only c -> read_only c -> (forall a : A, instance_only (k a)) ->
  instance_only (bind c k).
Proof.
  move=> ic rc ik w1 w2 eqw; rewrite /bind.
  have := ic w1 w2 eqw; have := rc w1; have := rc w2.
  case: (c w1) => [[a1|e1] w1'] /=; case: (c w2) => [[a2|e2] w2'] //= ? ?;
    subst w1' w2'; case=> <- //.
  exact: ik.
Qed.

Lemma instance_only_lift (A : Type) (r : result A) :
  instance_only (lift (n:=n) (d:=d) r).
Proof. by []. Qed.

Lemma instance_only_ret (A : Type) (a : A) : instance_only (ret (n:=n) (d:=d) a).
Proof. by []. Qed.

Lemma instance_only_this : instance_only (this (n:=n) (d:=d)).
Proof. by move=> w1 w2 /= ->. Qed.

Lemma instance_only_eval (x : Tensor) : instance_only (eval (n:=n) (d:=d) x).
Proof. by move=> w1 w2 eqw; rewrite !evalE /moments eqw. Qed.

(** C7: with a random source supplied, the outcome of
    [optimize_acqf_sample] is fixed by the instance, the sample count and
    the state of that source: two runs that agree on them return the same
    point and value, whatever else differs between them. *)
Theorem optimize_acqf_sample_deterministic
  (w1 w2 : World n d) (n_samples : option nat) (g : RandomState) :
  w_acqf w1 = w_acqf w2 ->
  (optimize_acqf_sample n_samples (Some g) w1).1 =
  (optimize_acqf_sample n_samples (Some g) w2).1.
Proof.
  move: w1 w2; rewrite -/(instance_only _) /optimize_acqf_sample.
  apply: instance_only_bind => [||acqf].
  - exact: instance_only_this.
  - exact: read_only_this.
  apply: instance_only_bind => [||xs].
  - rewrite /draw; apply: instance_only_bind => [||g'] //.
  - exact: read_only_draw.
  apply: instance_only_bind => [||res].
  - exact: instance_only_eval.
  - exact: read_only_eval.
  apply: instance_only_bind => [||best_i] //.
  apply: instance_only_bind => [||x] //.
  by apply: instance_only_bind => [||v].
Qed.

End Determinism.

(** ** Further properties *)

(** *** Log-EI, element by element *)

(** The value of [logei] on one mean, variance and incumbent. *)
Definition logei_scalar (m v f0 : R) : R :=
  ln (sqrt v) + logei_pointwise ((m - f0) / sqrt v).

Lemma logei_zip (junk : nat -> R) (mean var : Tensor) (f0 : R) :
  size (data mean) = size (data var) ->
  logei junk mean var f0 =
  Ok (mkTensor (shape var)
        [seq logei_scalar p.1 p.2 f0 | p <- zip (data mean) (data var)]).
Proof.
  move=> sz; rewrite logei_value; congr Ok.
  rewrite /tadd /tlog /tsqrt /tdiv /tsubs /tzip /tmap /=; congr mkTensor.
  elim: (data mean) (data var) sz => [|m ms IH] [|v vs] //= [sz].
  by rewrite IH.
Qed.

Lemma nth_logei_zip (mean var : seq R) (f0 : R) (i : nat) :
  size mean = size var -> (i < size mean)%N ->
  nth 0 [seq logei_scalar p.1 p.2 f0 | p <- zip mean var] i =
  logei_scalar (nth 0 mean i) (nth 0 var i) f0.
Proof.
  move=> sz lti.
  by rewrite (nth_map (0, 0)) ?nth_zip // size_zip -sz /minn ltnn.
Qed.

Lemma logei_scalar_value (m v f0 : R) :
  0 < v ->
  let z := (m - f0) / sqrt v in
  logei_scalar m v f0 = ln (sqrt v * (z * Normal.cdf z + Normal.pdf z)).
Proof.
  move=> v_pos z; rewrite /logei_scalar logei_pointwise_value.
  by apply: Normal.ln_expected_improvement; exact: sqrt_lt_R0.
Qed.

Lemma logei_scalar_mean_increasing (m m' v f0 : R) :
  0 < v -> m < m' -> logei_scalar m v f0 < logei_scalar m' v f0.
Proof.
  move=> v_pos lt_m; have s_pos := sqrt_lt_R0 v v_pos.
  rewrite !logei_scalar_value //; apply: ln_increasing.
  - apply: Rmult_lt_0_compat => //; exact: Normal.standard_improvement_pos.
  - apply: Rmult_lt_compat_l => //; apply: Normal.standard_improvement_increasing.
    by apply: Rmult_lt_compat_r; [exact: Rinv_0_lt_compat | lra].
Qed.

Lemma logei_scalar_incumbent_decreasing (m v f0 f0' : R) :
  0 < v -> f0 < f0' -> logei_scalar m v f0' < logei_scalar m v f0.
Proof.
  move=> v_pos lt_f; have s_pos := sqrt_lt_R0 v v_pos.
  rewrite !logei_scalar_value //; apply: ln_increasing.
  - apply: Rmult_lt_0_compat => //; exact: Normal.standard_improvement_pos.
  - apply: Rmult_lt_compat_l => //; apply: Normal.standard_improvement_increasing.
    by apply: Rmult_lt_compat_r; [exact: Rinv_0_lt_compat | lra].
Qed.

Lemma logei_scalar_variance_increasing (m v v' f0 : R) :
  0 < v -> v < v' -> logei_scalar m v f0 < logei_scalar m v' f0.
Proof.
  move=> v_pos lt_v.
  have v'_pos : 0 < v' by lra.
  have s_pos := sqrt_lt_R0 v v_pos.
  rewrite !logei_scalar_value //; apply: ln_increasing.
  - apply: Rmult_lt_0_compat => //; exact: Normal.standard_improvement_pos.
  - apply: Normal.scaled_improvement_increasing => //.
    by apply: sqrt_lt_1_alt; lra.
Qed.

(** X1: every element of [standard_logei z] is the logarithm of
    E[max(0, x + z)] for x ~ N(0, 1), which is positive; the two branches
    of the code are two formulas for this one function, so the result
    does not depend on where the threshold lies. *)
Theorem standard_logei_expectation (junk : nat -> R) (z : Tensor) :
  exists vals : Tensor,
    [/\ standard_logei junk z = Ok vals,
        forall x : R, logei_small_branch x = logei_normal_branch x
      & forall i : nat, (i < size (data z))%N ->
          exists E : R,
            [/\ Normal.normal_expectation 0 1
                  (fun x => Rmax 0 (x + nth 0 (data z) i)) E,
                0 < E
              & nth 0 (data vals) i = ln E]].
Proof.
  exists (tmap logei_pointwise z); split.
  - exact: standard_logei_pointwise.
  - move=> x.
    by rewrite /logei_small_branch /logei_normal_branch
      Normal.small_branch_value Normal.normal_branch_value.
  move=> i lti; set zi := nth 0 (data z) i.
  have [] := Normal.normal_expected_improvement 0 1 (- zi) Rlt_0_1.
  rewrite sqrt_1.
  have -> : (0 - - zi) / 1 = zi by field.
  have -> : (fun y : R => Rmax 0 (y - - zi)) = (fun x : R => Rmax 0 (x + zi)).
    by apply: functional_extensionality => y; congr Rmax; ring.
  rewrite Rmult_1_l => expect E_pos.
  exists (zi * Normal.cdf zi + Normal.pdf zi); split=> //.
  by rewrite nth_tmap // logei_pointwise_value.
Qed.

(** X2: with positive variances, each element of [logei] grows strictly
    with the mean and falls strictly as the incumbent rises. *)
Theorem logei_monotone_in_mean_and_incumbent
  (junk : nat -> R) (mean mean' var : Tensor) (f0 f0' : R) :
  size (data mean) = size (data var) ->
  size (data mean') = size (data var) ->
  (forall v : R, v \in data var -> 0 < v) ->
  exists out out_mean out_inc : Tensor,
    [/\ logei junk mean var f0 = Ok out,
        logei junk mean' var f0 = Ok out_mean,
        logei junk mean var f0' = Ok out_inc,
        forall i : nat, (i < size (data var))%N ->
          nth 0 (data mean) i < nth 0 (data mean') i ->
          nth 0 (data out) i < nth 0 (data out_mean) i
      & f0 < f0' ->
        forall i : nat, (i < size (data var))%N ->
          nth 0 (data out_inc) i < nth 0 (data out) i].
Proof.
  move=> sz sz' var_pos.
  do 3![eexists]; split; try exact: logei_zip.
  - move=> i lti lt_m /=.
    have v_pos : 0 < nth 0 (data var) i by apply: var_pos; exact: mem_nth.
    rewrite !nth_logei_zip ?sz ?sz' //.
    exact: logei_scalar_mean_increasing.
  - move=> lt_f i lti /=.
    have v_pos : 0 < nth 0 (data var) i by apply: var_pos; exact: mem_nth.
    rewrite !nth_logei_zip ?sz //.
    exact: logei_scalar_incumbent_decreasing.
Qed.

(** X3: each element of [logei] grows strictly with the variance: more
    uncertainty, more expected improvement. *)
Theorem logei_monotone_in_variance
  (junk : nat -> R) (mean var var' : Tensor) (f0 : R) :
  size (data mean) = size (data var) ->
  size (data mean) = size (data var') ->
  (forall v : R, v \in data var -> 0 < v) ->
  exists out out' : Tensor,
    [/\ logei junk mean var f0 = Ok out,
        logei junk mean var' f0 = Ok out'
      & forall i : nat, (i < size (data mean))%N ->
          nth 0 (data var) i < nth 0 (data var') i ->
          nth 0 (data out) i < nth 0 (data out') i].
Proof.
  move=> sz sz' var_pos.
  do 2![eexists]; split; try exact: logei_zip.
  move=> i lti lt_v /=.
  have v_pos : 0 < nth 0 (data var) i.
    by apply: var_pos; apply: mem_nth; rewrite -sz.
  rewrite !nth_logei_zip //.
  exact: logei_scalar_variance_increasing.
Qed.

(** X4: the expected improvement exceeds the improvement of the mean:
    exp of each element of [logei] is above max(0, mean - f0). *)
Theorem logei_exceeds_mean_improvement
  (junk : nat -> R) (mean var : Tensor) (f0 : R) :
  size (data mean) = size (data var) ->
  (forall v : R, v \in data var -> 0 < v) ->
  exists out : Tensor,
    logei junk mean var f0 = Ok out /\
    forall i : nat, (i < size (data mean))%N ->
      Rmax 0 (nth 0 (data mean) i - f0) < exp (nth 0 (data out) i).
Proof.
  move=> sz var_pos; eexists; split; first exact: logei_zip.
  move=> i lti /=; rewrite nth_logei_zip //.
  set m := nth 0 (data mean) i; set v := nth 0 (data var) i.
  have v_pos : 0 < v by apply: var_pos; apply: mem_nth; rewrite -sz.
  have s_pos := sqrt_lt_R0 v v_pos.
  rewrite logei_scalar_value //.
  set z := (m - f0) / sqrt v.
  have m_pos := Normal.standard_improvement_pos z.
  have m_gt := Normal.standard_improvement_gt z.
  have E_pos : 0 < sqrt v * (z * Normal.cdf z + Normal.pdf z).
    exact: Rmult_lt_0_compat.
  rewrite exp_ln //; apply: Rmax_lub_lt => //.
  have -> : m - f0 = sqrt v * z by rewrite /z; field; lra.
  exact: Rmult_lt_compat_l.
Qed.

(** X5: [logei] does not change when the means and the incumbent are
    shifted by one constant; rescaling means and incumbent by a > 0 and
    variances by a^2 adds log a to each element. *)
Theorem logei_shift_and_scale
  (junk : nat -> R) (mean var : Tensor) (f0 c a : R) :
  size (data mean) = size (data var) ->
  (forall v : R, v \in data var -> 0 < v) ->
  0 < a ->
  logei junk (tadds mean c) var (f0 + c) = logei junk mean var f0
  /\ exists out out' : Tensor,
       [/\ logei junk mean var f0 = Ok out,
           logei junk (smul a mean) (smul (a * a) var) (a * f0) = Ok out'
         & forall i : nat, (i < size (data mean))%N ->
             nth 0 (data out') i = ln a + nth 0 (data out) i].
Proof.
  move=> sz var_pos a_pos; split.
  - rewrite !logei_value /tsubs /tadds tmap_tmap.
    have -> // : tmap (fun x => x + c - (f0 + c)) mean
                 = tmap (fun x => x - f0) mean.
    by apply: eq_tmap => x; ring.
  do 2![eexists]; split; try apply: logei_zip => //.
    by rewrite /= !size_map.
  move=> i lti.
  have ltv : (i < size (data var))%N by rewrite -sz.
  rewrite !nth_logei_zip ?size_map // !(nth_map 0) //.
  set m := nth 0 (data mean) i; set v := nth 0 (data var) i.
  have v_pos : 0 < v by apply: var_pos; exact: mem_nth.
  have s_pos := sqrt_lt_R0 v v_pos.
  have sq : sqrt (a * a * v) = a * sqrt v.
    by rewrite sqrt_mult ?sqrt_square //; nra.
  rewrite /logei_scalar sq ln_mult //.
  have -> : (a * m - a * f0) / (a * sqrt v) = (m - f0) / sqrt v by field; lra.
  ring.
Qed.

(** *** Confidence bounds *)

Lemma nth_ucb (mean var : Tensor) (beta : R) (i : nat) :
  size (data mean) = size (data var) -> (i < size (data mean))%N ->
  nth 0 (data (ucb mean var beta)) i
  = nth 0 (data mean) i + sqrt (beta * nth 0 (data var) i).
Proof.
  move=> sz lti.
  rewrite /ucb /tadd nth_tzip ?size_map // /tsqrt /smul tmap_tmap nth_tmap //.
  by rewrite -sz.
Qed.

Lemma nth_lcb (mean var : Tensor) (beta : R) (i : nat) :
  size (data mean) = size (data var) -> (i < size (data mean))%N ->
  nth 0 (data (lcb mean var beta)) i
  = nth 0 (data mean) i - sqrt (beta * nth 0 (data var) i).
Proof.
  move=> sz lti.
  rewrite /lcb /tsub nth_tzip ?size_map // /tsqrt /smul tmap_tmap nth_tmap //.
  by rewrite -sz.
Qed.

(** X6: for var >= 0 and 0 <= beta <= beta', elementwise
    lcb(beta') <= lcb(beta) <= mean <= ucb(beta) <= ucb(beta'), and the
    mean is the midpoint of the two bounds. *)
Theorem confidence_bounds_enclose_mean
  (mean var : Tensor) (beta beta' : R) :
  size (data mean) = size (data var) ->
  (forall v : R, v \in data var -> 0 <= v) ->
  0 <= beta -> beta <= beta' ->
  forall i : nat, (i < size (data mean))%N ->
    let m := nth 0 (data mean) i in
    [/\ nth 0 (data (lcb mean var beta')) i <= nth 0 (data (lcb mean var beta)) i,
        nth 0 (data (lcb mean var beta)) i <= m,
        m <= nth 0 (data (ucb mean var beta)) i,
        nth 0 (data (ucb mean var beta)) i <= nth 0 (data (ucb mean var beta')) i
      & nth 0 (data (ucb mean var beta)) i + nth 0 (data (lcb mean var beta)) i
        = 2 * m].
Proof.
  move=> sz var_pos beta_pos le_beta i lti m.
  rewrite !nth_ucb // !nth_lcb // -/m.
  set v := nth 0 (data var) i.
  have v_pos : 0 <= v by apply: var_pos; apply: mem_nth; rewrite -sz.
  have s_pos := sqrt_pos (beta * v).
  have s_le : sqrt (beta * v) <= sqrt (beta' * v).
    by apply: sqrt_le_1_alt; exact: Rmult_le_compat_r.
  by split; lra.
Qed.

(** *** Construction: the cached state and its failures *)

Section ConstructionFurther.

Context {C : Collaborators}.
Variables n d : nat.

(** The matrix that [__init__] inverts. *)
Definition regularised_kernel
  (kp : KernelParamsTensor) (ss : SearchSpace) (X0 : 'M[R]_(n, d)) : 'M[R]_n :=
  (kernel (is_categorical ss) kp X0 X0 + (noise_var kp)%:M)%R.

Lemma BaseAcquisitionFunction_initE
  (kp : KernelParamsTensor) (ss : SearchSpace) (X0 : 'M[R]_(n, d)) (Y : 'cV[R]_n) :
  BaseAcquisitionFunction_init kp ss X0 Y =
  if regularised_kernel kp ss X0 \in unitmx then
    Ok (mkBase kp ss X0 (invmx (regularised_kernel kp ss X0))
          (invmx (regularised_kernel kp ss X0) *m Y)%R)
  else Raise LinAlgError.
Proof.
  rewrite /BaseAcquisitionFunction_init /linalg_inv add_diagE.
  by rewrite -/(regularised_kernel kp ss X0); case: ifP.
Qed.

(** X7: after a successful [__init__] the regularised kernel matrix A is
    invertible, [cov_Y_Y_inv] is also its right inverse, and
    [cov_Y_Y_inv_Y] solves A x = Y; a symmetric kernel matrix gives a
    symmetric [cov_Y_Y_inv]. *)
Theorem init_solves_linear_system
  (kp : KernelParamsTensor) (ss : SearchSpace) (X0 : 'M[R]_(n, d)) (Y : 'cV[R]_n)
  (self : BaseAcquisitionFunction n d) :
  BaseAcquisitionFunction_init kp ss X0 Y = Ok self ->
  let K := kernel [seq t == CATEGORICAL | t <- scale_types ss] kp X0 X0 in
  let A := (K + (noise_var kp)%:M)%R in
  [/\ A \in unitmx,
      (A *m cov_Y_Y_inv self)%R = 1%:M%R,
      (A *m cov_Y_Y_inv_Y self)%R = Y
    & (K^T)%R = K -> ((cov_Y_Y_inv self)^T)%R = cov_Y_Y_inv self].
Proof.
  rewrite BaseAcquisitionFunction_initE /regularised_kernel /is_categorical.
  set K := kernel _ _ _ _; set A := (K + _)%R.
  case: ifP => // unitA [<-] /=; split=> //.
  - exact: mulmxV.
  - by rewrite mulmxA mulmxV // mul1mx.
  - move=> symK; rewrite trmx_inv; congr invmx.
    by rewrite /A GRing.linearD /= symK tr_scalar_mx.
Qed.

(** X8: when the regularised kernel matrix is singular, the constructor
    of every class raises [LinAlgError]. *)
Theorem init_singular_raises
  (kp : KernelParamsTensor) (ss : SearchSpace) (X0 : 'M[R]_(n, d)) (Y : 'cV[R]_n)
  (noise : option R) (beta : R) :
  let K := kernel [seq t == CATEGORICAL | t <- scale_types ss] kp X0 X0 in
  (K + (noise_var kp)%:M)%R \notin unitmx ->
  [/\ BaseAcquisitionFunction_init kp ss X0 Y = Raise LinAlgError,
      LogEI_init kp ss X0 Y noise = Raise LinAlgError,
      UCB_init kp ss X0 Y beta = Raise LinAlgError
    & LCB_init kp ss X0 Y beta = Raise LinAlgError].
Proof.
  move=> K /negbTE singular.
  have fails : BaseAcquisitionFunction_init kp ss X0 Y = Raise LinAlgError.
    by rewrite BaseAcquisitionFunction_initE /regularised_kernel singular.
  by rewrite /LogEI_init /UCB_init /LCB_init fails.
Qed.

End ConstructionFurther.

(** X9: with no observations, [LogEI] cannot be constructed: the
    inversion of the empty matrix succeeds and [np.max] of the empty Y
    raises [ValueError]; [UCB] and [LCB] are constructed. *)
Theorem init_without_observations
  {C : Collaborators} (d : nat)
  (kp : KernelParamsTensor) (ss : SearchSpace) (X0 : 'M[R]_(0, d)) (Y : 'cV[R]_0)
  (noise : option R) (beta : R) :
  [/\ LogEI_init kp ss X0 Y noise = Raise ValueError,
      exists b : BaseAcquisitionFunction 0 d,
        UCB_init kp ss X0 Y beta = Ok (UCB b beta)
    & exists b : BaseAcquisitionFunction 0 d,
        LCB_init kp ss X0 Y beta = Ok (LCB b beta)].
Proof.
  have unit0 : regularised_kernel kp ss X0 \in unitmx.
    by rewrite unitmxE det_mx00 GRing.unitr1.
  have no_max : np_max Y = Raise ValueError.
    rewrite /np_max; case eqs : [seq Y i ord0 | i <- enum 'I_0] => [|y ys] //.
    by have := f_equal size eqs; rewrite size_map size_enum_ord.
  rewrite /LogEI_init /UCB_init /LCB_init BaseAcquisitionFunction_initE unit0 /=.
  by rewrite no_max; split=> //; eexists.
Qed.

(** *** Evaluation *)

Section EvaluationFurther.

Context {C : Collaborators}.
Variables n d : nat.

(** X10: for moments of one shape, [eval_no_grad] never raises and
    returns one value per posterior mean, in the shape of the moments,
    whatever the class of the instance. *)
Theorem eval_no_grad_shape (w : World n d) (x : Tensor) :
  shape (moments w x).1 = shape (moments w x).2 ->
  size (data (moments w x).1) = size (data (moments w x).2) ->
  exists out : Tensor,
    [/\ eval_no_grad x w = (Ok out, w),
        shape out = shape (moments w x).1
      & size (data out) = size (data (moments w x).1)].
Proof.
  move=> sh sz; rewrite /eval_no_grad evalE; eexists; split=> //.
  - by case: (w_acqf w) => [b m s|b beta|b beta] /=; rewrite ?sh.
  - exact: size_formula.
Qed.

(** X11: on a 1-dimensional input for which the formula does not yield
    exactly one value, [eval_with_grad] raises [RuntimeError]: [backward]
    needs a scalar. *)
Theorem eval_with_grad_needs_scalar (w : World n d) (x : Tensor) :
  ndim x = 1%N ->
  size (data (moments w x).1) = size (data (moments w x).2) ->
  size (data (moments w x).1) <> 1%N ->
  eval_with_grad x w = (Raise RuntimeError, w).
Proof.
  move=> nd sz /eqP/negbTE not1.
  rewrite /eval_with_grad nd /bind /= evalE /backward.
  by rewrite size_formula // not1.
Qed.

(** X12: the value of a [LogEI] instance with a positive stabilising
    noise is defined wherever the posterior variance is non-negative,
    also where it vanishes: each element is the logarithm of
    E[max(0, y - max_Y)] for y ~ N(mean, var + noise). *)
Theorem LogEI_eval_expected_improvement
  (w : World n d) (x : Tensor) (b : BaseAcquisitionFunction n d)
  (max_Y noise : R) :
  w_acqf w = LogEI b max_Y noise ->
  0 < noise ->
  size (data (moments w x).1) = size (data (moments w x).2) ->
  (forall v : R, v \in data (moments w x).2 -> 0 <= v) ->
  exists out : Tensor,
    eval_no_grad x w = (Ok out, w) /\
    forall i : nat, (i < size (data (moments w x).1))%N ->
      exists E : R,
        [/\ Normal.normal_expectation
              (nth 0 (data (moments w x).1) i)
              (nth 0 (data (moments w x).2) i + noise)
              (fun y => Rmax 0 (y - max_Y)) E,
            0 < E
          & nth 0 (data out) i = ln E].
Proof.
  move=> eqw noise_pos sz var_pos.
  set mean := (moments w x).1 in sz *; set var := (moments w x).2 in sz var_pos *.
  have szn : size (data mean) = size (data (tadds var noise)).
    by rewrite /= size_map.
  have run : eval_no_grad x w
             = (logei (w_junk w) mean (tadds var noise) max_Y, w).
    by rewrite /eval_no_grad evalE eqw /= logei_value.
  rewrite run logei_zip //; eexists; split; first by [].
  move=> i lti /=.
  have ltv : (i < size (data var))%N by rewrite -sz.
  rewrite nth_logei_zip ?size_map // (nth_map 0) //.
  set m := nth 0 (data mean) i; set v := nth 0 (data var) i.
  have v_pos : 0 < v + noise.
    by have := var_pos v (mem_nth 0 ltv); lra.
  have [expect E_pos] := Normal.normal_expected_improvement m (v + noise) max_Y v_pos.
  eexists; split; [exact: expect | exact: E_pos |].
  exact: logei_scalar_value.
Qed.

End EvaluationFurther.

(** *** The maximiser on an empty evaluation *)

(** X13: when the evaluation of the batch has no element, as with
    [n_samples = 0], [optimize_acqf_sample] raises [ValueError]: there is
    no arg-max of an empty array. *)
Theorem optimize_acqf_sample_empty
  {C : Collaborators} (n d : nat)
  (w : World n d) (n_samples : option nat) (rng : option RandomState)
  (res : Tensor) :
  let count := if n_samples is Some k then k else 2048%N in
  let source := if rng is Some g then g else w_default_rng w in
  let xs :=
    sample_normalized_params count (search_space (base_of (w_acqf w))) source in
  (eval_no_grad xs w).1 = Ok res ->
  data res = [::] ->
  optimize_acqf_sample n_samples rng w = (Raise ValueError, w).
Proof.
  move=> count source xs ev empty.
  have evw : eval xs w = (Ok res, w).
    by move: ev; rewrite /eval_no_grad evalE /= => ->.
  rewrite /optimize_acqf_sample /bind /this /draw /bind /=.
  have -> : (if rng is Some g then ret g else default_rng (d:=d)) w
            = (Ok source, w) by rewrite /source; case: (rng).
  by rewrite /= -/count -/xs /eval_no_grad evw /lift /np_argmax empty.
Qed.

(** ** A concrete setting

    One observation in one dimension, a kernel that is constantly zero,
    unit noise, a posterior with mean 0 and variance 1 everywhere, and a
    sampler that returns the point 0. *)

Module Demo.

Definition constant_posterior (n d : nat) (kp : R) (X0 : 'M[R]_(n, d)) (m : bitseq)
  (Ki : 'M[R]_n) (KiY : 'cV[R]_n) (x : Tensor) : Tensor * Tensor :=
  let sh := if shape x is k :: _ :: _ then [:: k] else [::] in
  let k := foldr muln 1%N sh in
  (mkTensor sh (nseq k 0), mkTensor sh (nseq k 1)).

#[export] Instance collaborators : Collaborators := {|
  KernelParamsTensor := R;
  noise_var := fun kp => kp;
  ScaleType := bool;
  CATEGORICAL := true;
  SearchSpace := seq bool;
  scale_types := fun ss => ss;
  kernel := fun n m d _ _ _ _ => 0%R;
  posterior := constant_posterior;
  RandomState := nat;
  sample_normalized_params :=
    fun k ss g => mkTensor [:: k; size ss] (nseq (k * size ss) 0);
  gradient := fun _ _ _ => 0
|}.

Definition X0 : 'M[R]_(1, 1) := 0%R.

Definition Y : 'cV[R]_1 := const_mx 3.

Definition K0 : 'M[R]_1 := 0%R.

Definition regularised : 'M[R]_1 :=
  (\matrix_(i, j) if i == j then (K0 i j + 1)%real else K0 i j)%R.

Lemma regularisedE : regularised = 1%:M%R.
Proof.
  apply/matrixP => i j; rewrite !mxE; case: (i == j) => //=.
  by rewrite Rplus_0_l.
Qed.

Lemma regularised_unit : regularised \in unitmx.
Proof. by rewrite regularisedE unitmx1. Qed.

Definition base : BaseAcquisitionFunction 1 1 :=
  mkBase (C:=collaborators) 1 [:: false] X0
    (invmx regularised) (invmx regularised *m Y)%R.

Lemma base_init :
  BaseAcquisitionFunction_init (C:=collaborators) 1 [:: false] X0 Y = Ok base.
Proof.
  rewrite /BaseAcquisitionFunction_init.
  by rewrite (linalg_inv_unit (A:=add_diag _ _) regularised_unit).
Qed.

Lemma np_max_Y : np_max Y = Ok 3.
Proof.
  have [m em] := np_max_nonempty Y isT.
  by have [[i eqm] _] := np_max_spec em; rewrite em -eqm mxE.
Qed.

Definition world (acqf : AcquisitionFunction 1 1) (junk : nat -> R) (g : nat) :
  World 1 1 :=
  mkWorld acqf junk g.

Definition point : Tensor := mkTensor [:: 1%N] [:: 0].

Definition seed : RandomState (Collaborators:=collaborators) := 5%N.

End Demo.

(** ** The theorems at concrete inputs *)

Lemma logei_expected_improvement_witness :
  let mean := mkTensor [:: 1%N] [:: 0] in
  let var := mkTensor [:: 1%N] [:: 1] in
  [/\ size (data mean) = size (data var),
      forall v : R, v \in data var -> 0 < v
    & exists st_val : Tensor,
        logei (fun=> 7) mean var 0 = Ok (tadd (tlog (tsqrt var)) st_val) /\
        exists E : R,
          [/\ Normal.normal_expectation 0 1 (fun y => Rmax 0 (y - 0)) E,
              0 < E
            & nth 0 (data (tadd (tlog (tsqrt var)) st_val)) 0 = ln E]].
Proof.
  move=> mean var.
  have pos : forall v : R, v \in data var -> 0 < v.
    by move=> v; rewrite inE => /eqP ->; lra.
  split=> //.
  have [st_val [_ run _ value]] :=
    @logei_expected_improvement (fun=> 7) mean var 0 erefl pos.
  exists st_val; split; first exact: run.
  have [_ _ _ [E [expect _ E_pos out]]] := value 0%N isT.
  by exists E.
Defined.


Lemma ucb_lcb_closed_form_witness :
  let mean := mkTensor [:: 2%N] [:: 1; 2] in
  let var := mkTensor [:: 2%N] [:: 4; 9] in
  [/\ size (data mean) = size (data var),
      forall v : R, v \in data var -> 0 <= v,
      0 <= 1
    & nth 0 (data (ucb mean var 1)) 1 - nth 0 (data (lcb mean var 1)) 1
      = 2 * sqrt (1 * 9)].
Proof.
  move=> mean var.
  have pos : forall v : R, v \in data var -> 0 <= v.
    by move=> v; rewrite !inE => /orP [/eqP -> | /eqP ->]; lra.
  have le01 : 0 <= 1 by lra.
  split=> //.
  have [elementwise _ _] := @ucb_lcb_closed_form mean var 1 erefl pos le01.
  by have [_ _] := elementwise 1%N isT.
Defined.

Lemma init_covariance_inverse_witness :
  Demo.regularised \in unitmx /\
  exists self : BaseAcquisitionFunction 1 1,
    BaseAcquisitionFunction_init (C:=Demo.collaborators) 1 [:: false]
      Demo.X0 Demo.Y = Ok self /\
    (cov_Y_Y_inv self *m (Demo.K0 + 1%:M))%R = 1%:M%R.
Proof.
  split; first exact: Demo.regularised_unit.
  have [self [run _ _ _ inverse]] :=
    @init_covariance_inverse Demo.collaborators 1 1 1 [:: false]
      Demo.X0 Demo.Y Demo.regularised_unit.
  by exists self.
Defined.

Lemma LogEI_state_and_eval_witness :
  let self := LogEI Demo.base 3 1e-12 in
  LogEI_init (C:=Demo.collaborators) 1 [:: false] Demo.X0 Demo.Y None = Ok self
  /\ exists i : 'I_1, Demo.Y i ord0 = 3.
Proof.
  move=> self.
  have run : LogEI_init (C:=Demo.collaborators) 1 [:: false] Demo.X0 Demo.Y None
             = Ok self.
    by rewrite /LogEI_init Demo.base_init Demo.np_max_Y.
  split=> //.
  have [b [m [stab [eqs _ [maxY _] _ _]]]] := LogEI_state_and_eval run.
  by case: eqs maxY => _ <- _.
Defined.

Lemma eval_with_grad_contract_witness :
  let w := Demo.world (LogEI Demo.base 3 1e-12) (fun=> 7) 0 in
  exists (v : R) (val : Tensor),
    [/\ eval Demo.point w = (Ok val, w),
        data val = [:: v]
      & eval_with_grad Demo.point w = (Ok (v, mkTensor [:: 1%N] [:: 0]), w)].
Proof.
  move=> w.
  have [_ one_dim] := eval_with_grad_contract w Demo.point.
  have [v [val [grad [[ev single] eg run _ _]]]] := one_dim erefl erefl erefl.
  by exists v, val; split=> //; rewrite run eg.
Defined.

Lemma eval_with_grad_value_witness :
  let w := Demo.world (UCB Demo.base 1) (fun=> 7) 0 in
  let v := 0 + sqrt (1 * 1) in
  eval_with_grad Demo.point w = (Ok (v, mkTensor [:: 1%N] [:: 0]), w)
  /\ exists val : Tensor,
       eval_no_grad Demo.point w = (Ok val, w) /\ data val = [:: v].
Proof.
  move=> w v.
  have run : eval_with_grad Demo.point w = (Ok (v, mkTensor [:: 1%N] [:: 0]), w).
    by [].
  split=> //.
  by have [_] := eval_with_grad_value run.
Defined.

Lemma optimize_acqf_sample_argmax_witness :
  let w := Demo.world (UCB Demo.base 1) (fun=> 7) 0 in
  let xs := mkTensor [:: 1%N; 1%N] [:: 0] in
  let res := mkTensor [:: 1%N] [:: 0 + sqrt (1 * 1)] in
  (eval_no_grad xs w).1 = Ok res /\
  optimize_acqf_sample (Some 1%N) (Some Demo.seed) w =
  (Ok (mkTensor [:: 1%N] [:: 0], mkTensor [::] [:: 0 + sqrt (1 * 1)]), w).
Proof.
  move=> w xs res.
  have ev : (eval_no_grad xs w).1 = Ok res by [].
  split; first exact: ev.
  have [_ single] :=
    @optimize_acqf_sample_argmax Demo.collaborators 1 1 w (Some 1%N) (Some Demo.seed)
      1 res isT erefl erefl ev erefl erefl.
  exact: single.
Defined.

Lemma optimize_acqf_sample_deterministic_witness :
  let acqf := LogEI Demo.base 3 1e-12 in
  let w1 := Demo.world acqf (fun=> 0) 0 in
  let w2 := Demo.world acqf (fun=> 1) 9 in
  w_acqf w1 = w_acqf w2 /\
  (optimize_acqf_sample (Some 4%N) (Some Demo.seed) w1).1 =
  (optimize_acqf_sample (Some 4%N) (Some Demo.seed) w2).1.
Proof.
  move=> acqf w1 w2; split; first by [].
  exact: (@optimize_acqf_sample_deterministic Demo.collaborators 1 1 w1 w2
            (Some 4%N) Demo.seed erefl).
Defined.

(** ** The further properties at concrete inputs *)

(** A posterior that answers a single point with two means and two
    variances, against its interface. *)
Module DemoWide.

Definition wide_posterior (n d : nat) (kp : R) (X0 : 'M[R]_(n, d)) (m : bitseq)
  (Ki : 'M[R]_n) (KiY : 'cV[R]_n) (x : Tensor) : Tensor * Tensor :=
  (mkTensor [:: 2%N] [:: 0; 0], mkTensor [:: 2%N] [:: 1; 1]).

#[export] Instance collaborators : Collaborators := {|
  KernelParamsTensor := R;
  noise_var := fun kp => kp;
  ScaleType := bool;
  CATEGORICAL := true;
  SearchSpace := seq bool;
  scale_types := fun ss => ss;
  kernel := fun n m d _ _ _ _ => 0%R;
  posterior := wide_posterior;
  RandomState := nat;
  sample_normalized_params :=
    fun k ss g => mkTensor [:: k; size ss] (nseq (k * size ss) 0);
  gradient := fun _ _ _ => 0
|}.

Definition base : BaseAcquisitionFunction 1 1 :=
  mkBase (C:=collaborators) 1 [:: false] 0%R 1%:M%R 0%R.

Definition world : World 1 1 := mkWorld (UCB base 1) (fun=> 7) 0%N.

End DemoWide.

Lemma standard_logei_expectation_witness :
  exists vals : Tensor,
    standard_logei (fun=> 7) (mkTensor [:: 1%N] [:: -30]) = Ok vals /\
    exists E : R,
      [/\ Normal.normal_expectation 0 1 (fun x => Rmax 0 (x + -30)) E,
          0 < E
        & nth 0 (data vals) 0 = ln E].
Proof.
  have [vals [run _ value]] :=
    standard_logei_expectation (fun=> 7) (mkTensor [:: 1%N] [:: -30]).
  by exists vals; split; [exact: run | exact: (value 0%N isT)].
Defined.

Lemma logei_monotone_in_mean_and_incumbent_witness :
  let mean := mkTensor [:: 1%N] [:: 0] in
  let mean' := mkTensor [:: 1%N] [:: 1] in
  let var := mkTensor [:: 1%N] [:: 1] in
  (forall v : R, v \in data var -> 0 < v) /\
  exists out out_mean out_inc : Tensor,
    [/\ logei (fun=> 7) mean var 0 = Ok out,
        logei (fun=> 7) mean' var 0 = Ok out_mean,
        logei (fun=> 7) mean var 2 = Ok out_inc,
        nth 0 (data out) 0 < nth 0 (data out_mean) 0
      & nth 0 (data out_inc) 0 < nth 0 (data out) 0].
Proof.
  move=> mean mean' var.
  have pos : forall v : R, v \in data var -> 0 < v.
    by move=> v; rewrite inE => /eqP ->; lra.
  split; first exact: pos.
  have [out [out_mean [out_inc [run run_mean run_inc in_mean in_inc]]]] :=
    @logei_monotone_in_mean_and_incumbent (fun=> 7) mean mean' var 0 2
      erefl erefl pos.
  exists out, out_mean, out_inc; split=> //.
  - by apply: (in_mean 0%N isT) => /=; lra.
  - by apply: in_inc => //; lra.
Defined.

Lemma logei_monotone_in_variance_witness :
  let mean := mkTensor [:: 1%N] [:: 0] in
  let var := mkTensor [:: 1%N] [:: 1] in
  let var' := mkTensor [:: 1%N] [:: 4] in
  (forall v : R, v \in data var -> 0 < v) /\
  exists out out' : Tensor,
    [/\ logei (fun=> 7) mean var 0 = Ok out,
        logei (fun=> 7) mean var' 0 = Ok out'
      & nth 0 (data out) 0 < nth 0 (data out') 0].
Proof.
  move=> mean var var'.
  have pos : forall v : R, v \in data var -> 0 < v.
    by move=> v; rewrite inE => /eqP ->; lra.
  split; first exact: pos.
  have [out [out' [run run' grows]]] :=
    @logei_monotone_in_variance (fun=> 7) mean var var' 0 erefl erefl pos.
  exists out, out'; split=> //.
  by apply: (grows 0%N isT) => /=; lra.
Defined.

Lemma logei_exceeds_mean_improvement_witness :
  let mean := mkTensor [:: 1%N] [:: 5] in
  let var := mkTensor [:: 1%N] [:: 1] in
  (forall v : R, v \in data var -> 0 < v) /\
  exists out : Tensor,
    logei (fun=> 7) mean var 2 = Ok out /\
    Rmax 0 (5 - 2) < exp (nth 0 (data out) 0).
Proof.
  move=> mean var.
  have pos : forall v : R, v \in data var -> 0 < v.
    by move=> v; rewrite inE => /eqP ->; lra.
  split; first exact: pos.
  have [out [run above]] :=
    @logei_exceeds_mean_improvement (fun=> 7) mean var 2 erefl pos.
  by exists out; split; [exact: run | exact: (above 0%N isT)].
Defined.

Lemma logei_shift_and_scale_witness :
  let mean := mkTensor [:: 1%N] [:: 5] in
  let var := mkTensor [:: 1%N] [:: 1] in
  [/\ forall v : R, v \in data var -> 0 < v,
      0 < 3
    & logei (fun=> 7) (tadds mean 10) var (2 + 10) = logei (fun=> 7) mean var 2].
Proof.
  move=> mean var.
  have pos : forall v : R, v \in data var -> 0 < v.
    by move=> v; rewrite inE => /eqP ->; lra.
  have pos3 : 0 < 3 by lra.
  split=> //.
  by have [shift _] :=
    @logei_shift_and_scale (fun=> 7) mean var 2 10 3 erefl pos pos3.
Defined.

Lemma confidence_bounds_enclose_mean_witness :
  let mean := mkTensor [:: 1%N] [:: 5] in
  let var := mkTensor [:: 1%N] [:: 4] in
  [/\ forall v : R, v \in data var -> 0 <= v,
      0 <= 1, 1 <= 2,
      nth 0 (data (lcb mean var 1)) 0 <= 5
    & 5 <= nth 0 (data (ucb mean var 1)) 0].
Proof.
  move=> mean var.
  have pos : forall v : R, v \in data var -> 0 <= v.
    by move=> v; rewrite inE => /eqP ->; lra.
  have le01 : 0 <= 1 by lra.
  have le12 : 1 <= 2 by lra.
  split=> //.
  - by have [_ below _ _ _] :=
      @confidence_bounds_enclose_mean mean var 1 2 erefl pos le01 le12 0%N isT.
  - by have [_ _ above _ _] :=
      @confidence_bounds_enclose_mean mean var 1 2 erefl pos le01 le12 0%N isT.
Defined.

Lemma init_solves_linear_system_witness :
  BaseAcquisitionFunction_init (C:=Demo.collaborators) 1 [:: false]
    Demo.X0 Demo.Y = Ok Demo.base
  /\ ((Demo.K0 + 1%:M) *m cov_Y_Y_inv_Y Demo.base)%R = Demo.Y.
Proof.
  split; first exact: Demo.base_init.
  by have [_ _ solves _] := init_solves_linear_system Demo.base_init.
Defined.

Lemma init_singular_raises_witness :
  ((0 : 'M[R]_1) + (0 : R)%:M)%R \notin unitmx /\
  UCB_init (C:=Demo.collaborators) 0 [:: false] Demo.X0 Demo.Y 1
  = Raise LinAlgError.
Proof.
  have singular : ((0 : 'M[R]_1) + (0 : R)%:M)%R \notin unitmx.
    by rewrite GRing.add0r GRing.raddf0 unitmxE det0 GRing.unitr0.
  split; first exact: singular.
  by have [_ _ ucb_fails _] :=
    @init_singular_raises Demo.collaborators 1 1 0 [:: false] Demo.X0 Demo.Y
      None 1 singular.
Defined.

Lemma eval_no_grad_shape_witness :
  let w := Demo.world (LogEI Demo.base 3 1e-12) (fun=> 7) 0 in
  exists out : Tensor,
    eval_no_grad Demo.point w = (Ok out, w) /\ size (data out) = 1%N.
Proof.
  move=> w.
  have [out [run _ sz]] := @eval_no_grad_shape _ 1 1 w Demo.point erefl erefl.
  by exists out.
Defined.

Lemma eval_with_grad_needs_scalar_witness :
  ndim Demo.point = 1%N /\
  eval_with_grad Demo.point DemoWide.world = (Raise RuntimeError, DemoWide.world).
Proof.
  split; first by [].
  exact: (@eval_with_grad_needs_scalar DemoWide.collaborators 1 1
            DemoWide.world Demo.point erefl erefl).
Defined.

Lemma LogEI_eval_expected_improvement_witness :
  let w := Demo.world (LogEI Demo.base 3 1e-12) (fun=> 7) 0 in
  0 < 1e-12 /\
  exists out : Tensor,
    eval_no_grad Demo.point w = (Ok out, w) /\
    exists E : R,
      [/\ Normal.normal_expectation 0 (1 + 1e-12) (fun y => Rmax 0 (y - 3)) E,
          0 < E
        & nth 0 (data out) 0 = ln E].
Proof.
  move=> w.
  have noise_pos : 0 < 1e-12 by lra.
  have var_pos : forall v : R, v \in data (moments w Demo.point).2 -> 0 <= v.
    by move=> v; rewrite inE => /eqP ->; lra.
  split; first exact: noise_pos.
  have [out [run value]] :=
    @LogEI_eval_expected_improvement _ 1 1 w Demo.point Demo.base 3 1e-12
      erefl noise_pos erefl var_pos.
  by exists out; split; [exact: run | exact: (value 0%N isT)].
Defined.

Lemma optimize_acqf_sample_empty_witness :
  let w := Demo.world (UCB Demo.base 1) (fun=> 7) 0 in
  optimize_acqf_sample (Some 0%N) (Some Demo.seed) w = (Raise ValueError, w).
Proof.
  move=> w.
  exact: (@optimize_acqf_sample_empty Demo.collaborators 1 1 w (Some 0%N)
            (Some Demo.seed) (mkTensor [:: 0%N] [::]) erefl erefl).
Defined.
